(** * teleport: the message object (package [socket]) and the peer (package [tp])

    A shallow embedding of [socket/message.go] and [peer.go].

    Conventions of the embedding:
    - a Go [uint32], [int32], [byte] or [time.Duration] is a [Z]; where the
      source does arithmetic on it the wrap-around of the Go type is written
      out ([wrap_int32], [wrap_int64]);
    - a Go [error] that may be [nil] is an [option]; [None] is [nil];
    - package-level variables and the fields reached through a pointer
      receiver are passed and returned explicitly;
    - a call that may panic says so in its result, and a loop that waits on
      its environment consumes what the environment delivers;
    - logging ([Debugf], [Infof], ...) and the bookkeeping of the process
      ([addPeer], [deletePeer]) leave no trace in the embedding. *)

From Stdlib Require Import ZArith Lia Strings.Byte Permutation.
From stdpp Require Import base option list strings gmap.

Local Open Scope Z_scope.

(** ** Results of calls that may panic *)

Inductive res (A : Type) : Type :=
| Ret (a : A)
| Panic (v : string).
Arguments Ret {A} a.
Arguments Panic {A} v.

(* ===================================================================== *)
(** * Package [socket]: message.go *)
(* ===================================================================== *)

Module socket.

(** [math.MaxUint32] *)
Definition MaxUint32 : Z := 4294967295.

Definition is_uint32 (z : Z) : Prop := 0 <= z <= MaxUint32.

(** The errors the message object can hand back.  [ErrExceedMessageSizeLimit]
    is the package variable of that name; [ErrUnknownCodec] is what the codec
    registry answers on a miss; [ErrCodec] stands for an error produced by a
    codec's own [Marshal] or [Unmarshal]. *)
Inductive error : Type :=
| ErrExceedMessageSizeLimit
| ErrUnknownCodec (id : Z)
| ErrCodec (msg : string).

(** *** The global size limit *)

(** [var messageSizeLimit uint32 = math.MaxUint32] *)
Definition messageSizeLimit_init : Z := MaxUint32.

(** [func MessageSizeLimit() uint32]; the package variable is the argument. *)
Definition MessageSizeLimit (messageSizeLimit : Z) : Z := messageSizeLimit.

(** [func SetMessageSizeLimit(maxMessageSize uint32)]; returns the new value
    of the package variable. *)
Definition SetMessageSizeLimit (maxMessageSize : Z) : Z :=
  if maxMessageSize <=? 0 then MaxUint32 else maxMessageSize.

(** [func checkMessageSize(messageSize uint32) error] *)
Definition checkMessageSize (messageSizeLimit messageSize : Z) : option error :=
  if messageSize >? messageSizeLimit then Some ErrExceedMessageSizeLimit else None.

(** *** Collaborators of the message that live in other packages *)

(** Modelled from the spec: [utils.Args] (package utils is not among the
    sources).  The spec calls meta an "ordered multimap of string->string";
    it is the list of its pairs, [Reset] empties it and [Add] appends. *)
Definition Args : Type := list (string * string).
Definition Args_Reset (a : Args) : Args := [].
Definition Args_Add (key value : string) (a : Args) : Args := a ++ [(key, value)].

(** Modelled from the spec: [xfer.XferPipe] (package xfer is not among the
    sources).  "A pipe is an ordered list of filter ids"; [Reset] empties it. *)
Definition XferPipe : Type := list Z.
Definition XferPipe_Reset (x : XferPipe) : XferPipe := [].

(** Modelled from the spec: [codec.NilCodecID] (package codec is not among
    the sources).  "bodyCodec (unsigned byte id; 0 means no codec)". *)
Definition NilCodecID : Z := 0.

Section Message.

(** [Value] is the dynamic type of a body that is neither [nil] nor a byte
    buffer; [Ctx] is [context.Context]. *)
Context {Value Ctx : Type}.

(** The [interface{}] held in the field [body], split the way the type
    switches of [MarshalBody] and [UnmarshalBody] split it. *)
Inductive body_value : Type :=
| BodyNil                                 (* the nil interface *)
| BodyBytesPtr (p : option (list byte))   (* *[]byte; [None] is the nil pointer *)
| BodyBytes (b : list byte)               (* []byte *)
| BodyOther (v : Value).                  (* any other dynamic type *)

(** The fields reachable through the [Header] interface. *)
Record Header : Type := mkHeader {
  h_seq : Z;
  h_mtype : Z;
  h_serviceMethod : string;
  h_meta : Args
}.

(** [type NewBodyFunc func(Header) interface{}].  The function receives the
    message as a [Header], whose setters it may call, and returns the body
    (a new-body function is taken to return, not to panic). *)
Definition NewBodyFunc : Type := Header -> Header * body_value.

(** [type message struct].  [meta] and [xferPipe] are pointers that
    [NewMessage] allocates and nothing resets to nil, so they are held by
    value. *)
Record message : Type := mkMessage {
  seq : Z;                               (* int32 *)
  mtype : Z;                             (* byte *)
  serviceMethod : string;
  meta : Args;
  bodyCodec : Z;                         (* byte *)
  body : body_value;
  newBodyFunc : option NewBodyFunc;
  xferPipe : XferPipe;
  size : Z;                              (* uint32 *)
  ctx : option Ctx
}.

(** Field assignments [m.f = v]. *)
Definition set_seq (v : Z) (m : message) : message :=
  mkMessage v (mtype m) (serviceMethod m) (meta m) (bodyCodec m) (body m)
            (newBodyFunc m) (xferPipe m) (size m) (ctx m).
Definition set_mtype (v : Z) (m : message) : message :=
  mkMessage (seq m) v (serviceMethod m) (meta m) (bodyCodec m) (body m)
            (newBodyFunc m) (xferPipe m) (size m) (ctx m).
Definition set_serviceMethod (v : string) (m : message) : message :=
  mkMessage (seq m) (mtype m) v (meta m) (bodyCodec m) (body m)
            (newBodyFunc m) (xferPipe m) (size m) (ctx m).
Definition set_meta (v : Args) (m : message) : message :=
  mkMessage (seq m) (mtype m) (serviceMethod m) v (bodyCodec m) (body m)
            (newBodyFunc m) (xferPipe m) (size m) (ctx m).
Definition set_bodyCodec (v : Z) (m : message) : message :=
  mkMessage (seq m) (mtype m) (serviceMethod m) (meta m) v (body m)
            (newBodyFunc m) (xferPipe m) (size m) (ctx m).
Definition set_body (v : body_value) (m : message) : message :=
  mkMessage (seq m) (mtype m) (serviceMethod m) (meta m) (bodyCodec m) v
            (newBodyFunc m) (xferPipe m) (size m) (ctx m).
Definition set_newBodyFunc (v : option NewBodyFunc) (m : message) : message :=
  mkMessage (seq m) (mtype m) (serviceMethod m) (meta m) (bodyCodec m) (body m)
            v (xferPipe m) (size m) (ctx m).
Definition set_xferPipe (v : XferPipe) (m : message) : message :=
  mkMessage (seq m) (mtype m) (serviceMethod m) (meta m) (bodyCodec m) (body m)
            (newBodyFunc m) v (size m) (ctx m).
Definition set_size (v : Z) (m : message) : message :=
  mkMessage (seq m) (mtype m) (serviceMethod m) (meta m) (bodyCodec m) (body m)
            (newBodyFunc m) (xferPipe m) v (ctx m).
Definition set_ctx (v : option Ctx) (m : message) : message :=
  mkMessage (seq m) (mtype m) (serviceMethod m) (meta m) (bodyCodec m) (body m)
            (newBodyFunc m) (xferPipe m) (size m) v.

(** The message seen through the [Header] interface, and written back. *)
Definition as_Header (m : message) : Header :=
  mkHeader (seq m) (mtype m) (serviceMethod m) (meta m).
Definition with_Header (h : Header) (m : message) : message :=
  set_meta (h_meta h)
    (set_serviceMethod (h_serviceMethod h)
      (set_mtype (h_mtype h) (set_seq (h_seq h) m))).

(** [type MessageSetting func(Message)]: a closure that mutates the message
    and may panic ([WithXferPipe] does on an unregistered filter id).  It
    returns the message as it leaves it and the panic value, if any. *)
Definition MessageSetting : Type := message -> message * option string.

(** [func (m *message) doSetting(settings ...MessageSetting)]; a [nil]
    setting ([None]) is skipped, a panic stops the loop. *)
Fixpoint doSetting (settings : list (option MessageSetting)) (m : message)
  : message * option string :=
  match settings with
  | [] => (m, None)
  | None :: rest => doSetting rest m
  | Some fn :: rest =>
      match fn m with
      | (m', None) => doSetting rest m'
      | (m', Some v) => (m', Some v)
      end
  end.

(** [func (m *message) Reset(settings ...MessageSetting)], statement by
    statement. *)
Definition Reset (settings : list (option MessageSetting)) (m : message)
  : message * option string :=
  let m := set_body BodyNil m in
  let m := set_meta (Args_Reset (meta m)) m in
  let m := set_xferPipe (XferPipe_Reset (xferPipe m)) m in
  let m := set_newBodyFunc None m in
  let m := set_seq 0 m in
  let m := set_mtype 0 m in
  let m := set_serviceMethod "" m in
  let m := set_size 0 m in
  let m := set_ctx None m in
  let m := set_bodyCodec NilCodecID m in
  doSetting settings m.

(** [func NewMessage(settings ...MessageSetting) Message] *)
Definition NewMessage (settings : list (option MessageSetting))
  : message * option string :=
  doSetting settings
    (mkMessage 0 0 "" [] 0 BodyNil None [] 0 None).

(** The settings of message.go that touch only fields of the message. *)
Definition WithNothing : MessageSetting := fun m => (m, None).
Definition WithContext (c : option Ctx) : MessageSetting :=
  fun m => (set_ctx c m, None).
Definition WithMtype (t : Z) : MessageSetting :=
  fun m => (set_mtype t m, None).
Definition WithServiceMethod (s : string) : MessageSetting :=
  fun m => (set_serviceMethod s m, None).
Definition WithAddMeta (key value : string) : MessageSetting :=
  fun m => (set_meta (Args_Add key value (meta m)) m, None).
Definition WithBodyCodec (c : Z) : MessageSetting :=
  fun m => (set_bodyCodec c m, None).
Definition WithBody (b : body_value) : MessageSetting :=
  fun m => (set_body b m, None).
Definition WithNewBody (f : option NewBodyFunc) : MessageSetting :=
  fun m => (set_newBodyFunc f m, None).

(** [func (m *message) SetSize(size uint32) error] *)
Definition SetSize (messageSizeLimit : Z) (sz : Z) (m : message)
  : message * option error :=
  match checkMessageSize messageSizeLimit sz with
  | Some err => (m, Some err)
  | None => (set_size sz m, None)
  end.

(** *** The codec registry *)

(** Modelled from the spec: a codec of package codec (not among the
    sources): "A codec exposes: id, name, marshal(value)->bytes,
    unmarshal(bytes, target)".  [Unmarshal] writes through its target, so it
    returns the target as it leaves it. *)
Record Codec : Type := mkCodec {
  Marshal : body_value -> list byte * option error;
  Unmarshal : list byte -> body_value -> body_value * option error
}.

(** Modelled from the spec: [codec.Get] (package codec is not among the
    sources), over the process-wide registry "from 1-byte id to codec":
    "Lookup by unknown id fails with unknown-codec". *)
Definition codec_Get (registry : gmap Z Codec) (id : Z) : Codec + error :=
  match registry !! id with
  | Some c => inl c
  | None => inr (ErrUnknownCodec id)
  end.

(** [func (m *message) MarshalBody() ([]byte, error)] *)
Definition MarshalBody (registry : gmap Z Codec) (m : message)
  : list byte * option error :=
  match body m with
  | BodyNil => ([], None)
  | BodyBytesPtr None => ([], None)
  | BodyBytesPtr (Some b) => (b, None)
  | BodyBytes b => (b, None)
  | (BodyOther _) as b =>
      match codec_Get registry (bodyCodec m) with
      | inr err => ([], Some err)
      | inl c => Marshal c b
      end
  end.

(** [func (m *message) UnmarshalBody(bodyBytes []byte) error].  The write
    through a [*[]byte] leaves exactly [bodyBytes] behind it, whichever way
    the buffer is obtained; a nil [*[]byte] is dereferenced and panics. *)
Definition UnmarshalBody (registry : gmap Z Codec) (bodyBytes : list byte)
  (m : message) : message * res (option error) :=
  let m :=
    match body m, newBodyFunc m with
    | BodyNil, Some f =>
        let '(h, b) := f (as_Header m) in set_body b (with_Header h m)
    | _, _ => m
    end in
  let length := Z.of_nat (List.length bodyBytes) in
  if length =? 0 then (m, Ret None)
  else
    match body m with
    | BodyNil => (m, Ret None)
    | BodyBytesPtr None => (m, Panic "nil pointer dereference")
    | BodyBytesPtr (Some _) => (set_body (BodyBytesPtr (Some bodyBytes)) m, Ret None)
    | b =>
        match codec_Get registry (bodyCodec m) with
        | inr err => (m, Ret (Some err))
        | inl c =>
            let '(b', e) := Unmarshal c bodyBytes b in
            (set_body b' m, Ret e)
        end
    end.

End Message.

Arguments body_value : clear implicits.
Arguments message : clear implicits.
Arguments Codec : clear implicits.
Arguments MessageSetting : clear implicits.
Arguments NewBodyFunc : clear implicits.

(** *** The message pool *)

Section Pool.

Context {Value Ctx : Type}.

(** [var messagePool = sync.Pool{New: func() interface{} { return
    NewMessage() }}]: the pool is the list of the messages put back and not
    yet handed out.  [Get] hands out one of them, or a new message when it
    finds none (the pool is empty, or the collector emptied it); [pick] is
    the choice [sync.Pool] makes. *)
Definition messagePool_Get (pick : option nat) (pool : list (message Value Ctx))
  : message Value Ctx * list (message Value Ctx) :=
  match pick with
  | Some i =>
      match pool !! i with
      | Some m => (m, delete i pool)
      | None => (fst (NewMessage []), pool)
      end
  | None => (fst (NewMessage []), pool)
  end.

(** [func GetMessage(settings ...MessageSetting) Message] *)
Definition GetMessage (pick : option nat)
  (settings : list (option (MessageSetting Value Ctx)))
  (pool : list (message Value Ctx))
  : (message Value Ctx * option string) * list (message Value Ctx) :=
  let '(m, pool) := messagePool_Get pick pool in
  (doSetting settings m, pool).

(** [func PutMessage(m Message)]: [m.Reset()], then [messagePool.Put(m)]. *)
Definition PutMessage (m : message Value Ctx) (pool : list (message Value Ctx))
  : list (message Value Ctx) :=
  fst (Reset [] m) :: pool.

(** A use of the pool: a [GetMessage] or a [PutMessage] of a message the
    caller owns. *)
Inductive pool_call : Type :=
| CallGet (pick : option nat) (settings : list (option (MessageSetting Value Ctx)))
| CallPut (m : message Value Ctx).

(** The results of the [GetMessage] calls of a run, in order, and the pool
    the run leaves. *)
Fixpoint pool_run (calls : list pool_call) (pool : list (message Value Ctx))
  : list (message Value Ctx * option string) * list (message Value Ctx) :=
  match calls with
  | [] => ([], pool)
  | CallGet pick settings :: rest =>
      let '(r, pool) := GetMessage pick settings pool in
      let '(rs, pool) := pool_run rest pool in
      (r :: rs, pool)
  | CallPut m :: rest => pool_run rest (PutMessage m pool)
  end.

(** The successive values of [messageSizeLimit] are those of the calls of
    [SetMessageSizeLimit]; this is the value after a list of calls. *)
Definition limit_after (calls : list Z) : Z :=
  foldl (fun _ maxMessageSize => SetMessageSizeLimit maxMessageSize)
        messageSizeLimit_init calls.

End Pool.

End socket.

(* ===================================================================== *)
(** * Package [tp]: peer.go *)
(* ===================================================================== *)

Module tp.

(** *** Machine integers and durations *)

Definition wrap_int32 (z : Z) : Z := (z + 2 ^ 31) mod 2 ^ 32 - 2 ^ 31.
Definition wrap_int64 (z : Z) : Z := (z + 2 ^ 63) mod 2 ^ 64 - 2 ^ 63.
Definition is_int32 (z : Z) : Prop := - 2 ^ 31 <= z < 2 ^ 31.

(** [time.Duration] counts nanoseconds in an [int64]. *)
Definition Millisecond : Z := 1000000.
Definition Second : Z := 1000000000.

(** *** What the environment hands to the peer *)

(** An [error] value: the text of [Error()], and, when the value implements
    [net.Error], what its [Temporary()] answers. *)
Record error : Type := mkError {
  Error : string;
  Temporary : option bool
}.

(** [var ErrListenClosed = errors.New("listener is closed")] *)
Definition ErrListenClosed : error := mkError "listener is closed" None.

(** A [net.Conn]: its addresses, whether its dynamic type is [*tls.Conn],
    and what [Handshake()] returns on it. *)
Record Conn : Type := mkConn {
  Conn_LocalAddr : string;
  Conn_RemoteAddr : string;
  Conn_isTLS : bool;
  Conn_Handshake : option error
}.

(** A [net.Listener]: its address, whether its dynamic type is
    [*quic.Listener], and what [Close()] returns on it. *)
Record Listener : Type := mkListener {
  Listener_Addr : string;
  Listener_isQuic : bool;
  Listener_Close : option error
}.

(** Modelled from the spec: [Rerror] (declared outside peer.go): "a
    structured remote error (code, message, cause)", with [SetReason] on a
    copy. *)
Record Rerror : Type := mkRerror {
  Code : Z;
  Message : string;
  Reason : string
}.
Definition Rerror_SetReason (reason : string) (r : Rerror) : Rerror :=
  mkRerror (Code r) (Message r) reason.

(** Modelled from the spec: the session states (session.go is not among the
    sources): "one of preparing, ok, active-closing, passive-closing,
    closed". *)
Inductive status_t : Type :=
| statusPreparing | statusOk | statusActiveClosing | statusPassiveClosing
| statusClosed.

(** Modelled from the spec: the socket of a session (socket.go is not among
    the sources): it "wraps a byte-oriented transport connection", carries
    the identifier string of the session and is rebound by [Reset]. *)
Record socket_t : Type := mkSocket {
  socket_Conn : Conn;
  socket_id : string
}.
Definition socket_SetID (id : string) (s : socket_t) : socket_t :=
  mkSocket (socket_Conn s) id.
Definition socket_Reset (conn : Conn) (s : socket_t) : socket_t :=
  mkSocket conn (socket_id s).

(** Modelled from the spec: a session (session.go is not among the
    sources): its socket, its state, whether the client redial hook is
    installed, and what its [Close()] returns. *)
Record session : Type := mkSession {
  sess_socket : socket_t;
  sess_status : status_t;
  sess_redialForClientLocked : bool;
  sess_CloseErr : option error
}.
Definition ID (s : session) : string := socket_id (sess_socket s).
Definition LocalAddr (s : session) : string :=
  Conn_LocalAddr (socket_Conn (sess_socket s)).
Definition getConn (s : session) : Conn := socket_Conn (sess_socket s).
Definition set_socket (k : socket_t) (s : session) : session :=
  mkSession k (sess_status s) (sess_redialForClientLocked s) (sess_CloseErr s).
Definition set_status (st : status_t) (s : session) : session :=
  mkSession (sess_socket s) st (sess_redialForClientLocked s) (sess_CloseErr s).
Definition set_redial (b : bool) (s : session) : session :=
  mkSession (sess_socket s) (sess_status s) b (sess_CloseErr s).
Definition session_Close (s : session) : session * option error :=
  (set_status statusClosed s, sess_CloseErr s).

(** [type peer struct], the fields peer.go reads or writes. *)
Record peer : Type := mkPeer {
  sessHub : gmap string session;
  closeCh_closed : bool;
  defaultSessionAge : Z;
  defaultContextAge : Z;
  tlsConfig : bool;                      (* tlsConfig != nil *)
  network : string;
  redialInterval : Z;
  redialTimes : Z;                       (* int32 *)
  listeners : list Listener
}.
Definition set_sessHub (h : gmap string session) (p : peer) : peer :=
  mkPeer h (closeCh_closed p) (defaultSessionAge p) (defaultContextAge p)
         (tlsConfig p) (network p) (redialInterval p) (redialTimes p)
         (listeners p).
Definition set_closeCh_closed (b : bool) (p : peer) : peer :=
  mkPeer (sessHub p) b (defaultSessionAge p) (defaultContextAge p)
         (tlsConfig p) (network p) (redialInterval p) (redialTimes p)
         (listeners p).
Definition set_listeners (l : list Listener) (p : peer) : peer :=
  mkPeer (sessHub p) (closeCh_closed p) (defaultSessionAge p)
         (defaultContextAge p) (tlsConfig p) (network p) (redialInterval p)
         (redialTimes p) l.

(** Modelled from the spec: [SessionHub.Set] (declared outside peer.go):
    the peer "owns a session registry (keyed by session id)". *)
Definition sessHub_Set (s : session) (p : peer) : peer :=
  set_sessHub (<[ID s := s]> (sessHub p)) p.

(** What a run of the peer does to its environment, in order. *)
Inductive event : Type :=
| EvSleep (d : Z)                          (* time.Sleep(d) *)
| EvDial (n : nat)                         (* the n-th call of dialFunc *)
| EvConnClose (c : Conn)                   (* conn.Close() *)
| EvSetReadDeadline (c : Conn) (age : Z)
| EvHandshake (c : Conn) (r : option error)
| EvNewSession (c : Conn)                  (* newSession(p, conn, protoFunc) *)
| EvPostAccept (c : Conn)
| EvPostDial (c : Conn)
| EvSessionClose (id : string)             (* sess.Close() *)
| EvSessHubSet (id : string)               (* p.sessHub.Set(sess) *)
| EvStartReadAndHandle (id : string)
| EvGo (c : Conn)                          (* AnywayGo(accept task for c) *)
| EvListenerClose (l : Listener)           (* lis.Close() *)
| EvCloseCh.                               (* close(p.closeCh) *)

(** *** The redial counter *)

(** [func (r *redialTimes) next() bool]: the answer and the counter after. *)
Definition next (r : Z) : bool * Z :=
  let t := r in
  if t =? 0 then (false, r)
  else (true, if t >? 0 then wrap_int32 (r - 1) else r).

(** The answers of the first [k] calls of [next] on a counter. *)
Fixpoint next_answers (k : nat) (r : Z) : list bool :=
  match k with
  | O => []
  | S k' => let '(b, r') := next r in b :: next_answers k' r'
  end.

Section Peer.

(** Collaborators declared outside peer.go, taken as they are:
    [newSession], the [postDial] and [postAccept] hooks of the plugin
    container (each may touch the session and veto it), the error value
    [rerrDialFailed] and the method [ToError] of [Rerror]. *)
Variable newSession : Conn -> session.
Variable postDial : session -> session * option Rerror.
Variable postAccept : session -> session * option Rerror.
Variable rerrDialFailed : Rerror.
Variable Rerror_ToError : Rerror -> error.

(** What [dialFunc()] returns on its n-th call (n = 0 is the first). *)
Variable dialFunc : nat -> Conn + error.

(** The loop [for redialTimes.next() { ... }] of [newSessionForClient].
    [r] is the counter, [n] the number of calls of [dialFunc] so far and
    [cur] the current values of [conn, dialErr].  The loop may run for ever
    (a negative counter with a dial that keeps failing), so it takes fuel
    and answers [None] when the fuel runs out. *)
Fixpoint redial_loop (p : peer) (fuel : nat) (r : Z) (n : nat)
  (cur : Conn + error) : option (list event * nat * (Conn + error)) :=
  match fuel with
  | O => None
  | S fuel' =>
      let '(go, r') := next r in
      if go then
        match dialFunc n with
        | inl conn =>
            Some ([EvSleep (redialInterval p); EvDial n], S n, inl conn)
        | inr dialErr =>
            match redial_loop p fuel' r' (S n) (inr dialErr) with
            | Some (evs, n', cur') =>
                Some (EvSleep (redialInterval p) :: EvDial n :: evs, n', cur')
            | None => None
            end
        end
      else Some ([], n, cur)
  end.

(** [func (p *peer) newSessionForClient(dialFunc, addr, protoFuncs)],
    which returns a session and a [Rerror].  Answers the peer after the
    call, the events, the number of calls of [dialFunc] made, and the two
    results.  Of the closure stored in [redialForClientLocked] the session
    records only that it is installed. *)
Definition newSessionForClient (fuel : nat) (p : peer)
  : option (peer * list event * nat * (option session * option Rerror)) :=
  let first := dialFunc 0 in
  let looped :=
    match first with
    | inr dialErr => redial_loop p fuel (redialTimes p) 1%nat (inr dialErr)
    | inl conn => Some ([], 1%nat, inl conn)
    end in
  match looped with
  | None => None
  | Some (evs, n, inr dialErr) =>
      let rerr := Rerror_SetReason (Error dialErr) rerrDialFailed in
      Some (p, EvDial 0 :: evs, n, (None, Some rerr))
  | Some (evs, n, inl conn) =>
      let sess := newSession conn in
      let sess :=
        if redialTimes p =? 0 then sess else set_redial true sess in
      let sess := set_socket (socket_SetID (LocalAddr sess) (sess_socket sess)) sess in
      let evs := EvDial 0 :: evs ++ [EvNewSession conn; EvPostDial conn] in
      match postDial sess with
      | (sess, Some rerr) =>
          Some (p, evs ++ [EvSessionClose (ID sess)], n, (None, Some rerr))
      | (sess, None) =>
          Some (sessHub_Set sess p,
                evs ++ [EvStartReadAndHandle (ID sess); EvSessHubSet (ID sess)],
                n, (Some sess, None))
      end
  end.

(** [func (p *peer) Dial(addr, protoFunc...)]: [newSessionForClient] on the
    closure that dials [addr], of which [dialFunc] gives the results. *)
Definition Dial (fuel : nat) (p : peer)
  : option (peer * list event * nat * (option session * option Rerror)) :=
  newSessionForClient fuel p.

(** [func (p *peer) renewSessionForClient(sess, dialFunc, addr, protoFuncs)
    error], entered when [dialFunc] has been called [n] times.  Answers the
    peer, the session as the call leaves it, the events and the error. *)
Definition renewSessionForClient (p : peer) (sess : session) (n : nat)
  : peer * session * list event * option error :=
  match dialFunc n with
  | inr dialErr => (p, sess, [EvDial n], Some dialErr)
  | inl conn =>
      (* tls.Client(conn, p.tlsConfig) keeps the addresses of conn *)
      let conn :=
        if tlsConfig p
        then mkConn (Conn_LocalAddr conn) (Conn_RemoteAddr conn) true
                    (Conn_Handshake conn)
        else conn in
      let oldIP := LocalAddr sess in
      let oldID := ID sess in
      let oldConn := getConn sess in
      let sess := set_socket (socket_Reset conn (sess_socket sess)) sess in
      let sess :=
        if String.eqb oldIP oldID
        then set_socket (socket_SetID (LocalAddr sess) (sess_socket sess)) sess
        else set_socket (socket_SetID oldID (sess_socket sess)) sess in
      let sess := set_status statusOk sess in
      let evs := [EvDial n; EvConnClose oldConn; EvPostDial conn] in
      match postDial sess with
      | (sess, Some rerr) =>
          let '(sess, _) := session_Close sess in
          (p, sess, evs ++ [EvSessionClose (ID sess)], Some (Rerror_ToError rerr))
      | (sess, None) =>
          (sessHub_Set sess p, sess,
           evs ++ [EvStartReadAndHandle (ID sess); EvSessHubSet (ID sess)], None)
      end
  end.

(** *** The accept loop *)

(** What [lis.Accept()] delivers: a connection, or an error together with
    whether [p.closeCh] is closed when the loop looks at it. *)
Inductive accept_result : Type :=
| Accepted (conn : Conn)
| AcceptError (e : error) (closed : bool).

(** The update of [tempDelay] on a temporary accept error (the assignment,
    the doubling on [int64], the cap). *)
Definition next_tempDelay (tempDelay : Z) : Z :=
  let tempDelay :=
    if tempDelay =? 0 then 5 * Millisecond else wrap_int64 (tempDelay * 2) in
  let max := 1 * Second in
  if tempDelay >? max then max else tempDelay.

(** [ne, ok := e.(net.Error); ok && ne.Temporary()] *)
Definition is_temporary (e : error) : bool :=
  match Temporary e with
  | Some t => t
  | None => false
  end.

(** The [for] loop of [serveListener] over what [Accept] delivers.  Answers
    the events, the value of [tempDelay] where it stops, and the error it
    returns ([None] while it is still waiting in [Accept]). *)
Fixpoint accept_loop (tempDelay : Z) (accepts : list accept_result)
  : list event * Z * option error :=
  match accepts with
  | [] => ([], tempDelay, None)
  | AcceptError e closed :: rest =>
      if closed then ([], tempDelay, Some ErrListenClosed)
      else if is_temporary e then
        let tempDelay := next_tempDelay tempDelay in
        let '(evs, d, r) := accept_loop tempDelay rest in
        (EvSleep tempDelay :: evs, d, r)
      else ([], tempDelay, Some e)
  | Accepted conn :: rest =>
      let tempDelay := 0 in
      let '(evs, d, r) := accept_loop tempDelay rest in
      (EvGo conn :: evs, d, r)
  end.

(** The task [serveListener] starts for an accepted connection. *)
Definition accept_task (p : peer) (conn : Conn) : peer * list event :=
  let hs :=
    if Conn_isTLS conn then
      (if defaultSessionAge p >? 0
       then [EvSetReadDeadline conn (defaultSessionAge p)] else [])
      ++ (if defaultContextAge p >? 0
          then [EvSetReadDeadline conn (defaultContextAge p)] else [])
      ++ [EvHandshake conn (Conn_Handshake conn)]
    else [] in
  match (if Conn_isTLS conn then Conn_Handshake conn else None) with
  | Some err => (p, hs)
  | None =>
      let sess := newSession conn in
      match postAccept sess with
      | (sess, Some rerr) =>
          (p, hs ++ [EvNewSession conn; EvPostAccept conn; EvSessionClose (ID sess)])
      | (sess, None) =>
          (sessHub_Set sess p,
           hs ++ [EvNewSession conn; EvPostAccept conn; EvSessHubSet (ID sess);
                  EvStartReadAndHandle (ID sess)])
      end
  end.

(** [func (p *peer) serveListener(lis, protoFunc...) error]: the listener
    is recorded, the loop runs, and [defer lis.Close()] runs on return (the
    [postListen] hook is not part of the embedding). *)
Definition serveListener (p : peer) (lis : Listener)
  (accepts : list accept_result) : peer * list event * option error :=
  let p := set_listeners (lis :: listeners p) p in
  match accept_loop 0 accepts with
  | (evs, _, Some e) => (p, evs ++ [EvListenerClose lis], Some e)
  | (evs, _, None) => (p, evs, None)
  end.

(** *** Close *)

(** Modelled from the spec: [errors.Merge] of goutil (a library outside
    the repository): "The aggregate error is the merge of every individual
    error".  A merged error is the list of the errors merged into it, the
    nil error the empty list; merging a nil error changes nothing. *)
Definition merged : Type := list error.
Definition errors_Merge (err : merged) (e : option error) : merged :=
  match e with
  | Some x => err ++ [x]
  | None => err
  end.


(** [func (p *peer) Close() (err error)].  The sessions of the hub are
    closed in parallel; [arrivals] lists them in the order in which their
    results reach [errCh] (a permutation of [hub_sessions p]).  Closing
    [closeCh] a second time panics; the deferred [recover] turns the panic
    into the returned error (its stack trace is left out of the text). *)
Definition Close (p : peer) (arrivals : list session)
  : peer * list event * merged :=
  if closeCh_closed p then
    (p, [], [mkError "panic:close of closed channel" None])
  else
    let p := set_closeCh_closed true p in
    let stream := filter (fun l => Listener_isQuic l = false) (listeners p) in
    let err := foldl errors_Merge [] (sess_CloseErr <$> arrivals) in
    let quics := filter (fun l => Listener_isQuic l = true) (listeners p) in
    let err := foldl errors_Merge err (Listener_Close <$> quics) in
    (p,
     EvCloseCh :: (EvListenerClose <$> stream)
       ++ ((fun s => EvSessionClose (ID s)) <$> arrivals)
       ++ (EvListenerClose <$> quics),
     err).

End Peer.

(** *** Reading a run *)

(** The durations slept, in order. *)
Fixpoint sleeps (evs : list event) : list Z :=
  match evs with
  | [] => []
  | EvSleep d :: rest => d :: sleeps rest
  | _ :: rest => sleeps rest
  end.

(** The calls of [dialFunc], in order. *)
Fixpoint dials (evs : list event) : list nat :=
  match evs with
  | [] => []
  | EvDial n :: rest => n :: dials rest
  | _ :: rest => dials rest
  end.

Definition total (ds : list Z) : Z := foldr Z.add 0 ds.

(** The backoff as the specification words it: 5 ms to start with,
    doubling, capped at 1 s; [backoff i] is the delay after [i + 1]
    consecutive failures. *)
Definition backoff (i : nat) : Z :=
  Z.min (5 * Millisecond * 2 ^ Z.of_nat i) Second.

(** An accept that fails with a temporary error while the peer is open. *)
Definition temporary_failure (a : accept_result) : Prop :=
  match a with
  | AcceptError e closed => is_temporary e = true /\ closed = false
  | Accepted _ => False
  end.

(** The events that create, vet, register, start or close a session. *)
Definition session_event (ev : event) : Prop :=
  match ev with
  | EvNewSession _ | EvPostAccept _ | EvPostDial _ | EvSessionClose _
  | EvSessHubSet _ | EvStartReadAndHandle _ => True
  | _ => False
  end.

(** In [evs], every event in [Q] comes after some event in [P]. *)
Definition only_after (P Q : event -> Prop) (evs : list event) : Prop :=
  forall pre x post, evs = pre ++ x :: post -> Q x -> exists y, y ∈ pre /\ P y.

(** *** The rest of the peer *)

(** Modelled from the spec: [SessionHub.Get] and [Len] behind [GetSession]
    and [CountSession] (declared outside peer.go): the registry is "keyed
    by session id". *)
Definition GetSession (sessionID : string) (p : peer) : option session :=
  sessHub p !! sessionID.
Definition CountSession (p : peer) : nat := size (sessHub p).

(** [strings.Contains(s, substr)] *)
Fixpoint strings_Contains (s substr : string) : bool :=
  match s with
  | EmptyString => String.prefix substr EmptyString
  | String _ s' => String.prefix substr s || strings_Contains s' substr
  end.

(** The text [fmt.Errorf] builds in [ServeConn]. *)
Definition invalid_network (network : string) : error :=
  mkError ("invalid network: " +:+ network +:+ ","
           +:+ String (Ascii.ascii_of_nat 10) "refer to the following: tcp, tcp4, tcp6, unix, unixpacket or quic")
          None.

Section Serve.

Variable newSession : Conn -> session.
Variable postDial : session -> session * option Rerror.
Variable postAccept : session -> session * option Rerror.
Variable Rerror_ToError : Rerror -> error.
Variable dialFunc : nat -> Conn + error.

(** [func (p *peer) ServeConn(conn, protoFunc...) (Session, error)].
    [network] is [conn.LocalAddr().Network()] and [isQuic] says whether the
    dynamic type of [conn] is [*quic.Conn]. *)
Definition ServeConn (p : peer) (conn : Conn) (network : string) (isQuic : bool)
  : peer * list event * (option session * option error) :=
  if strings_Contains network "udp" && negb isQuic
  then (p, [], (None, Some (invalid_network network)))
  else
    let sess := newSession conn in
    match postAccept sess with
    | (sess, Some rerr) =>
        (p, [EvNewSession conn; EvPostAccept conn; EvSessionClose (ID sess)],
         (None, Some (Rerror_ToError rerr)))
    | (sess, None) =>
        (sessHub_Set sess p,
         [EvNewSession conn; EvPostAccept conn; EvSessHubSet (ID sess);
          EvStartReadAndHandle (ID sess)],
         (Some sess, None))
    end.

(** The loop of the closure [newSessionForClient] stores in
    [sess.redialForClientLocked]: [r] is the counter, [n] the number of
    calls of [dialFunc] so far, [err] the error of the last attempt.  As
    the loop of [newSessionForClient], it takes fuel. *)
Fixpoint redialForClient_loop (fuel : nat) (p : peer) (sess : session)
  (r : Z) (n : nat) (err : option error)
  : option (peer * session * list event * nat * bool) :=
  match fuel with
  | O => None
  | S fuel' =>
      let '(go, r') := next r in
      if go then
        let '(p', sess', evs, err') :=
          renewSessionForClient postDial Rerror_ToError dialFunc p sess n in
        match err' with
        | None => Some (p', sess', EvSleep (redialInterval p) :: evs, S n, true)
        | Some e =>
            match redialForClient_loop fuel' p' sess' r' (S n) (Some e) with
            | Some (p'', sess'', evs', n', b) =>
                Some (p'', sess'', EvSleep (redialInterval p) :: evs ++ evs', n', b)
            | None => None
            end
        end
      else Some (p, sess, [], n, false)
  end.

(** The closure itself.  A [Conn] carries no identity, so the outcome of
    the comparison [oldConn != sess.getConn()] is the argument [stale]. *)
Definition redialForClientLocked (fuel : nat) (p : peer) (sess : session)
  (stale : bool) (n : nat)
  : option (peer * session * list event * nat * bool) :=
  if stale then Some (p, sess, [], n, true)
  else redialForClient_loop fuel p sess (redialTimes p) n None.

End Serve.

(** The connections handed to an accept task, in order. *)
Fixpoint gos (evs : list event) : list Conn :=
  match evs with
  | [] => []
  | EvGo c :: rest => c :: gos rest
  | _ :: rest => gos rest
  end.

(** The connections among what [Accept] delivers. *)
Definition accepted (accepts : list accept_result) : list Conn :=
  omap (fun a => match a with Accepted c => Some c | AcceptError _ _ => None end)
       accepts.

(** Whether an accept result makes the loop of [serveListener] return, and
    the error it then returns. *)
Definition stops (a : accept_result) : bool :=
  match a with
  | AcceptError e closed => closed || negb (is_temporary e)
  | Accepted _ => false
  end.
Definition stop_error (a : accept_result) : option error :=
  match a with
  | AcceptError e closed =>
      if closed then Some ErrListenClosed
      else if is_temporary e then None else Some e
  | Accepted _ => None
  end.

End tp.

(* ===================================================================== *)
(** * Properties of the message object *)
(* ===================================================================== *)

Module MessageProperties.
Import socket.

Section Facts.
Context {Value Ctx : Type}.
Abbreviation message := (message Value Ctx).
Abbreviation Codec := (Codec Value).

(** The message every [Reset] starts its settings from. *)
Definition cleared : message :=
  mkMessage 0 0 "" [] NilCodecID BodyNil None [] 0 None.

Lemma checkMessageSize_exceeds (limit sz : Z) :
  checkMessageSize limit sz = Some ErrExceedMessageSizeLimit <-> limit < sz.
Proof.
  unfold checkMessageSize. destruct (Z.gtb_spec sz limit); split; intros ?;
    solve [reflexivity | lia | discriminate].
Qed.

Lemma checkMessageSize_within (limit sz : Z) :
  checkMessageSize limit sz = None <-> sz <= limit.
Proof.
  unfold checkMessageSize. destruct (Z.gtb_spec sz limit); split; intros ?;
    solve [reflexivity | lia | discriminate].
Qed.

(** C1: [SetSize] answers [ErrExceedMessageSizeLimit] exactly when the size
    is strictly above the current limit; in that case the message (so its
    stored size) is as before; otherwise it answers no error, the stored
    size is the argument, which is within the limit, and nothing else of
    the message changes. *)
Theorem SetSize_limit (limit sz : Z) (m : message) :
  (snd (SetSize limit sz m) = Some ErrExceedMessageSizeLimit <-> limit < sz)
  /\ (limit < sz ->
      SetSize limit sz m = (m, Some ErrExceedMessageSizeLimit)
      /\ size (fst (SetSize limit sz m)) = size m)
  /\ (sz <= limit ->
      SetSize limit sz m = (set_size sz m, None)
      /\ size (fst (SetSize limit sz m)) = sz
      /\ size (fst (SetSize limit sz m)) <= limit).
Proof.
  unfold SetSize. split; [| split].
  - rewrite <- checkMessageSize_exceeds.
    destruct (checkMessageSize limit sz) as [e|] eqn:E; simpl.
    + destruct e; try (unfold checkMessageSize in E;
        destruct (sz >? limit); discriminate). tauto.
    + split; discriminate.
  - intros H. apply checkMessageSize_exceeds in H. rewrite H. auto.
  - intros H. pose proof H as H'. apply checkMessageSize_within in H'.
    rewrite H'. simpl. auto.
Qed.

(** C2: the limit starts at the largest [uint32]; [SetMessageSizeLimit] on
    an argument that is [<= 0] (for a [uint32]: on 0) makes it the largest
    [uint32], on any other argument makes it that argument, as
    [MessageSizeLimit] reads it; the limit stays a [uint32]. *)
Theorem SetMessageSizeLimit_spec (maxMessageSize : Z) :
  is_uint32 maxMessageSize ->
  MessageSizeLimit messageSizeLimit_init = MaxUint32
  /\ MaxUint32 = 2 ^ 32 - 1
  /\ (maxMessageSize <= 0 ->
      MessageSizeLimit (SetMessageSizeLimit maxMessageSize) = MaxUint32)
  /\ (0 < maxMessageSize ->
      MessageSizeLimit (SetMessageSizeLimit maxMessageSize) = maxMessageSize)
  /\ is_uint32 (MessageSizeLimit (SetMessageSizeLimit maxMessageSize)).
Proof.
  intros [Hlo Hhi].
  unfold MessageSizeLimit, SetMessageSizeLimit, messageSizeLimit_init,
    is_uint32, MaxUint32 in *.
  destruct (Z.leb_spec maxMessageSize 0); repeat split; intros; lia.
Qed.

Lemma doSetting_app (s1 s2 : list (option (MessageSetting Value Ctx)))
  (m : message) :
  doSetting (s1 ++ s2) m =
  match doSetting s1 m with
  | (m', None) => doSetting s2 m'
  | (m', Some v) => (m', Some v)
  end.
Proof.
  revert m. induction s1 as [|[fn|] s1 IH]; intros m; simpl.
  - reflexivity.
  - destruct (fn m) as [m' [v|]]; [reflexivity | apply IH].
  - apply IH.
Qed.

Lemma Reset_clears (m : message) : Reset [] m = (cleared, None).
Proof. reflexivity. Qed.

(** C3: whatever the message holds, [Reset] without settings leaves seq 0,
    mtype 0, an empty service method, empty meta, a nil body, no new-body
    function, an empty filter pipe, size 0, no context and the nil codec id
    (which is 0); with settings, [Reset] is the cleared message with the
    settings applied to it in order: a nil setting is skipped, and each
    setting sees what the ones before it left. *)
Theorem Reset_spec (m : message)
  (settings : list (option (MessageSetting Value Ctx))) :
  let m0 := fst (Reset [] m) in
  snd (Reset [] m) = None
  /\ seq m0 = 0 /\ mtype m0 = 0 /\ serviceMethod m0 = ""
  /\ meta m0 = [] /\ body m0 = BodyNil /\ newBodyFunc m0 = None
  /\ xferPipe m0 = [] /\ size m0 = 0 /\ ctx m0 = None
  /\ bodyCodec m0 = NilCodecID /\ NilCodecID = 0
  /\ Reset settings m = doSetting settings m0
  /\ (forall rest, doSetting (None :: rest) m0 = doSetting rest m0)
  /\ (forall fn rest m1,
        fn m0 = (m1, None) -> doSetting (Some fn :: rest) m0 = doSetting rest m1)
  /\ (forall s1 s2 m1,
        doSetting s1 m0 = (m1, None) ->
        Reset (s1 ++ s2) m = doSetting s2 m1).
Proof.
  cbv zeta. rewrite Reset_clears. simpl.
  repeat (split; [reflexivity|]).
  split.
  - intros fn rest m1 H. simpl. rewrite H. reflexivity.
  - intros s1 s2 m1 H.
    change (Reset (s1 ++ s2) m) with (doSetting (s1 ++ s2) cleared).
    rewrite doSetting_app.
    change (doSetting s1 cleared = (m1, None)) in H.
    rewrite H. reflexivity.
Qed.

(** C8: [MarshalBody] by cases on the body.  A nil body or a nil
    byte-buffer pointer gives no bytes and no error, and a byte buffer gives
    its bytes, whatever the registry holds; for any other body the registry
    is asked for [bodyCodec]: the lookup fails exactly when the id is not
    registered, the answer is then no bytes and the unknown-codec error,
    and otherwise it is what the codec's [Marshal] returns on the body. *)
Theorem MarshalBody_cases (registry : gmap Z Codec) (m : message) :
  (body m = BodyNil \/ body m = BodyBytesPtr None ->
     forall reg', MarshalBody reg' m = ([], None))
  /\ (forall b, body m = BodyBytes b \/ body m = BodyBytesPtr (Some b) ->
     forall reg', MarshalBody reg' m = (b, None))
  /\ (forall v, body m = BodyOther v ->
      (codec_Get registry (bodyCodec m) = inr (ErrUnknownCodec (bodyCodec m))
         <-> registry !! bodyCodec m = None)
      /\ (registry !! bodyCodec m = None ->
          MarshalBody registry m = ([], Some (ErrUnknownCodec (bodyCodec m))))
      /\ (forall c, registry !! bodyCodec m = Some c ->
          MarshalBody registry m = Marshal c (BodyOther v))).
Proof.
  unfold MarshalBody, codec_Get. split; [|split].
  - intros [H|H] reg'; rewrite H; reflexivity.
  - intros b [H|H] reg'; rewrite H; reflexivity.
  - intros v H. rewrite H.
    destruct (registry !! bodyCodec m) as [c|] eqn:E.
    + split; [split; discriminate|]. split; [discriminate|].
      intros c' [= <-]. reflexivity.
    + split; [split; reflexivity|]. split; [reflexivity|]. discriminate.
Qed.

(** C10: on an empty byte string [UnmarshalBody] returns no error and does
    not panic, whatever the codec id and whatever the registry holds (two
    registries give the same answer); the message is as before, except that
    a nil body is first created by the new-body function when one is set. *)
Theorem UnmarshalBody_empty (registry : gmap Z Codec) (m : message) :
  snd (UnmarshalBody registry [] m) = Ret None
  /\ (forall reg', UnmarshalBody reg' [] m = UnmarshalBody registry [] m)
  /\ (body m <> BodyNil \/ newBodyFunc m = None ->
      fst (UnmarshalBody registry [] m) = m)
  /\ (forall f, body m = BodyNil -> newBodyFunc m = Some f ->
      fst (UnmarshalBody registry [] m)
        = set_body (snd (f (as_Header m))) (with_Header (fst (f (as_Header m))) m)
      /\ body (fst (UnmarshalBody registry [] m)) = snd (f (as_Header m))).
Proof.
  unfold UnmarshalBody. simpl.
  destruct (body m) eqn:Eb, (newBodyFunc m) as [g|] eqn:Ef; simpl;
    try destruct (g (as_Header m)) as [h b'] eqn:Eg; simpl;
    (split; [reflexivity|]); (split; [reflexivity|]);
    (split; [intros [H|H]; try reflexivity; try congruence|]);
    intros f H1 H2; try discriminate.
  injection H2 as <-. rewrite Eg. simpl. auto.
Qed.

End Facts.

(** *** The properties at concrete messages *)

Definition msg0 : socket.message string unit :=
  mkMessage 7 1 "/home/test" [("peer_id", "110")] 106
            (BodyOther "henrylee2cn") None [103] 42 (Some tt).

Definition upper : Codec string :=
  mkCodec (fun b => match b with
                    | BodyOther s => (String.list_byte_of_string s, None)
                    | _ => ([], Some (ErrCodec "not a string"))
                    end)
          (fun bs b => (BodyOther (String.string_of_list_byte bs), None)).

Example SetSize_oversize :
  SetSize 1024 1025 msg0 = (msg0, Some ErrExceedMessageSizeLimit).
Proof. reflexivity. Qed.

Example SetSize_at_limit :
  SetSize 1024 1024 msg0 = (set_size 1024 msg0, None).
Proof. reflexivity. Qed.

Example Reset_then_settings :
  Reset [Some (WithMtype 3); None; Some (WithAddMeta "k" "v");
         Some (WithMtype 1)] msg0
  = (mkMessage 0 1 "" [("k", "v")] 0 BodyNil None [] 0 None, None).
Proof. reflexivity. Qed.

Example Reset_stops_at_panic :
  Reset [Some (WithMtype 3); Some (fun m => (m, Some "unknown filter"));
         Some (WithMtype 1)] msg0
  = (mkMessage 0 3 "" [] 0 BodyNil None [] 0 None, Some "unknown filter").
Proof. reflexivity. Qed.

Example MarshalBody_unregistered :
  MarshalBody (∅ : gmap Z (Codec string)) msg0 = ([], Some (ErrUnknownCodec 106)).
Proof. reflexivity. Qed.

Example MarshalBody_registered :
  MarshalBody ({[106 := upper]} : gmap Z (Codec string)) msg0
  = (String.list_byte_of_string "henrylee2cn", None).
Proof. reflexivity. Qed.

Example UnmarshalBody_nonempty_unregistered :
  UnmarshalBody (∅ : gmap Z (Codec string)) [x61] msg0
  = (msg0, Ret (Some (ErrUnknownCodec 106))).
Proof. reflexivity. Qed.

Lemma SetMessageSizeLimit_spec_witness :
  is_uint32 1024
  /\ MessageSizeLimit (SetMessageSizeLimit 1024) = 1024
  /\ MessageSizeLimit (SetMessageSizeLimit 0) = MaxUint32.
Proof.
  split; [unfold is_uint32, MaxUint32; lia|]. split.
  - apply (SetMessageSizeLimit_spec 1024); [unfold is_uint32, MaxUint32|]; lia.
  - apply (SetMessageSizeLimit_spec 0); [unfold is_uint32, MaxUint32|]; lia.
Defined.

Lemma SetSize_limit_witness :
  SetSize 1024 1025 msg0 = (msg0, Some ErrExceedMessageSizeLimit)
  /\ size (fst (SetSize 1024 1025 msg0)) = 42
  /\ size (fst (SetSize 1024 1000 msg0)) = 1000.
Proof.
  destruct (SetSize_limit 1024 1025 msg0) as (_ & Hover & _).
  destruct (SetSize_limit 1024 1000 msg0) as (_ & _ & Hin).
  split; [apply Hover; lia|]. split.
  - apply (proj2 (Hover ltac:(lia))).
  - apply (Hin ltac:(lia)).
Defined.

Lemma Reset_spec_witness :
  Reset [Some (WithBodyCodec 106); Some (WithServiceMethod "/home/test")] msg0
  = (mkMessage 0 0 "/home/test" [] 106 BodyNil None [] 0 None, None).
Proof.
  destruct (Reset_spec msg0 []) as (_ & _ & _ & _ & _ & _ & _ & _ & _ & _ & _ & _ & _ & _ & _ & Happ).
  apply (Happ [Some (WithBodyCodec 106)] [Some (WithServiceMethod "/home/test")]
              (mkMessage 0 0 "" [] 106 BodyNil None [] 0 None) eq_refl).
Defined.

Lemma MarshalBody_cases_witness :
  MarshalBody (∅ : gmap Z (Codec string)) msg0 = ([], Some (ErrUnknownCodec 106))
  /\ MarshalBody ({[106 := upper]} : gmap Z (Codec string))
       (set_body (BodyBytes [x68; x69]) msg0) = ([x68; x69], None).
Proof.
  split.
  - destruct (MarshalBody_cases (∅ : gmap Z (Codec string)) msg0) as (_ & _ & Hother).
    destruct (Hother "henrylee2cn" eq_refl) as (_ & Hmiss & _).
    apply Hmiss. reflexivity.
  - destruct (MarshalBody_cases (∅ : gmap Z (Codec string))
                (set_body (BodyBytes [x68; x69]) msg0)) as (_ & Hraw & _).
    apply (Hraw [x68; x69]). left. reflexivity.
Defined.

Lemma UnmarshalBody_empty_witness :
  UnmarshalBody (∅ : gmap Z (Codec string)) [] msg0 = (msg0, Ret None)
  /\ body (fst (UnmarshalBody (∅ : gmap Z (Codec string)) []
               (set_newBodyFunc (Some (fun h => (h, BodyOther "fresh")))
                  (set_body BodyNil msg0))))
     = BodyOther "fresh".
Proof.
  split.
  - destruct (UnmarshalBody_empty (∅ : gmap Z (Codec string)) msg0)
      as (Herr & _ & Hsame & _).
    rewrite (surjective_pairing (UnmarshalBody ∅ [] msg0)), Herr, Hsame;
      [reflexivity | left; discriminate].
  - destruct (UnmarshalBody_empty (∅ : gmap Z (Codec string))
                (set_newBodyFunc (Some (fun h => (h, BodyOther "fresh")))
                   (set_body BodyNil msg0))) as (_ & _ & _ & Hnew).
    apply (Hnew _ eq_refl eq_refl).
Defined.

End MessageProperties.

(* ===================================================================== *)
(** * Properties of the peer *)
(* ===================================================================== *)

Module PeerProperties.
Import tp.

(** ** The accept backoff *)

Lemma wrap_int64_small (z : Z) :
  - 2 ^ 63 <= z < 2 ^ 63 -> wrap_int64 z = z.
Proof. intros H. unfold wrap_int64. rewrite Z.mod_small; lia. Qed.

Lemma wrap_int32_small (z : Z) :
  - 2 ^ 31 <= z < 2 ^ 31 -> wrap_int32 z = z.
Proof. intros H. unfold wrap_int32. rewrite Z.mod_small; lia. Qed.

Lemma backoff_range (i : nat) : 0 < backoff i <= Second.
Proof.
  unfold backoff, Second, Millisecond.
  assert (0 < 2 ^ Z.of_nat i) by (apply Z.pow_pos_nonneg; lia). lia.
Qed.

Lemma backoff_le_pow (i : nat) : backoff i <= 5 * Millisecond * 2 ^ Z.of_nat i.
Proof. unfold backoff. lia. Qed.

Lemma backoff_S (i : nat) : backoff (S i) = Z.min (2 * backoff i) Second.
Proof.
  unfold backoff. rewrite Nat2Z.inj_succ, Z.pow_succ_r by lia.
  unfold Second, Millisecond. lia.
Qed.

Lemma next_tempDelay_0 : next_tempDelay 0 = backoff 0.
Proof. reflexivity. Qed.

Lemma next_tempDelay_backoff (i : nat) :
  next_tempDelay (backoff i) = backoff (S i).
Proof.
  rewrite backoff_S. pose proof (backoff_range i) as Hr.
  unfold next_tempDelay.
  destruct (Z.eqb_spec (backoff i) 0) as [E|_]; [lia|].
  rewrite wrap_int64_small by (unfold Second in Hr; lia).
  replace (backoff i * 2) with (2 * backoff i) by lia.
  change (1 * Second) with Second.
  destruct (Z.gtb_spec (2 * backoff i) Second); lia.
Qed.

Lemma accept_loop_backoff (i : nat) (accepts : list accept_result) :
  Forall temporary_failure accepts ->
  accept_loop (backoff i) accepts
  = (EvSleep <$> (backoff <$> seq (S i) (length accepts)),
     backoff (i + length accepts), None).
Proof.
  intros H. revert i. induction H as [|a rest Ha _ IH]; intros i.
  - simpl. rewrite Nat.add_0_r. reflexivity.
  - destruct a as [c|e closed]; [destruct Ha|]. destruct Ha as [Ht ->].
    simpl. rewrite Ht, next_tempDelay_backoff, (IH (S i)).
    simpl. rewrite Nat.add_succ_r. reflexivity.
Qed.

Lemma accept_loop_from_0 (accepts : list accept_result) :
  Forall temporary_failure accepts ->
  (accept_loop 0 accepts).1.1
    = EvSleep <$> (backoff <$> seq 0 (length accepts))
  /\ (accept_loop 0 accepts).2 = None.
Proof.
  intros H. destruct H as [|a rest Ha Hrest]; [split; reflexivity|].
  destruct a as [c|e closed]; [destruct Ha|]. destruct Ha as [Ht ->].
  simpl. rewrite Ht, next_tempDelay_0, (accept_loop_backoff 0 rest Hrest).
  split; reflexivity.
Qed.

Lemma sleeps_EvSleep (ds : list Z) : sleeps (EvSleep <$> ds) = ds.
Proof. induction ds as [|d ds IH]; simpl; [reflexivity | f_equal; exact IH]. Qed.

Lemma total_app (xs ys : list Z) : total (xs ++ ys) = total xs + total ys.
Proof. unfold total. induction xs as [|x xs IH]; simpl; lia. Qed.

Lemma total_backoff (k : nat) :
  total (backoff <$> seq 0 k) <= 5 * Millisecond * (2 ^ Z.of_nat k - 1).
Proof.
  induction k as [|k IH]; [simpl; unfold total; simpl; lia|].
  rewrite seq_S, fmap_app, total_app.
  change (total (backoff <$> [(0 + k)%nat])) with (backoff k + 0).
  pose proof (backoff_le_pow k) as Hk.
  rewrite Nat2Z.inj_succ, Z.pow_succ_r by lia.
  unfold Millisecond in *. lia.
Qed.

Lemma backoff_lookup (k i : nat) (d : Z) :
  (backoff <$> seq 0 k) !! i = Some d -> d = backoff i.
Proof.
  rewrite list_lookup_fmap. intros H.
  destruct (seq 0 k !! i) as [j|] eqn:E; [|discriminate].
  apply lookup_seq in E as [-> _]. simpl in H. congruence.
Qed.

(** C4: over any run of consecutive temporary accept errors, met with
    [tempDelay] at zero, the loop keeps running and only sleeps; the first
    sleep is 5 ms, each later one is twice the one before capped at 1 s,
    none exceeds 1 s, and the sleeps of [k] failures add up to at most
    5 ms * (2^k - 1); an accept that succeeds puts [tempDelay] back to
    zero, so the failures that follow it are slept as from the start. *)
Theorem accept_backoff (accepts : list accept_result) :
  Forall temporary_failure accepts ->
  let k := length accepts in
  let evs := (accept_loop 0 accepts).1.1 in
  (accept_loop 0 accepts).2 = None
  /\ evs = EvSleep <$> sleeps evs
  /\ length (sleeps evs) = k
  /\ (forall d, sleeps evs !! 0%nat = Some d -> d = 5 * Millisecond)
  /\ (forall i d d', sleeps evs !! i = Some d -> sleeps evs !! S i = Some d' ->
        d' = Z.min (2 * d) Second)
  /\ (forall d, d ∈ sleeps evs -> 0 < d <= 1 * Second)
  /\ total (sleeps evs) <= 5 * Millisecond * (2 ^ Z.of_nat k - 1)
  /\ (forall d conn, (accept_loop d [Accepted conn]).1.2 = 0)
  /\ (forall d conn,
        accept_loop d (Accepted conn :: accepts)
        = (EvGo conn :: evs, (accept_loop 0 accepts).1.2, None)).
Proof.
  intros H k evs. destruct (accept_loop_from_0 accepts H) as [Hevs Hr].
  fold evs in Hevs.
  assert (Hs : sleeps evs = backoff <$> seq 0 k)
    by (rewrite Hevs; apply sleeps_EvSleep).
  split; [exact Hr|]. split; [rewrite Hs; exact Hevs|].
  split; [rewrite Hs, length_fmap, length_seq; reflexivity|].
  split; [intros d Hd; rewrite Hs in Hd; apply backoff_lookup in Hd;
          subst d; reflexivity|].
  split.
  { intros i d d' Hd Hd'. rewrite Hs in Hd, Hd'.
    apply backoff_lookup in Hd, Hd'. subst. apply backoff_S. }
  split.
  { intros d Hd. rewrite Hs in Hd. apply list_elem_of_lookup in Hd as [i Hi].
    apply backoff_lookup in Hi. subst d. pose proof (backoff_range i). lia. }
  split; [rewrite Hs; apply total_backoff|].
  split; [reflexivity|].
  intros d conn. simpl. subst evs.
  destruct (accept_loop 0 accepts) as [[e d'] r]. simpl in *. subst r.
  reflexivity.
Qed.

Definition timeout_error : error := mkError "accept: too many open files" (Some true).

Lemma accept_backoff_witness :
  Forall temporary_failure (replicate 10 (AcceptError timeout_error false))
  /\ sleeps (accept_loop 0 (replicate 10 (AcceptError timeout_error false))).1.1
       !! 0%nat = Some 5000000
  /\ total (sleeps (accept_loop 0 (replicate 10 (AcceptError timeout_error false))).1.1)
     <= 5 * Millisecond * (2 ^ 10 - 1).
Proof.
  assert (H : Forall temporary_failure (replicate 10 (AcceptError timeout_error false)))
    by (repeat constructor).
  split; [exact H|]. split; [reflexivity|].
  apply (accept_backoff _ H).
Defined.

Example accept_backoff_run :
  sleeps (accept_loop 0 (replicate 10 (AcceptError timeout_error false))).1.1
  = [5000000; 10000000; 20000000; 40000000; 80000000; 160000000; 320000000;
     640000000; 1000000000; 1000000000].
Proof. reflexivity. Qed.

Example accept_backoff_reset :
  accept_loop 0 [AcceptError timeout_error false; AcceptError timeout_error false;
                 Accepted (mkConn "a" "b" false None);
                 AcceptError timeout_error false;
                 AcceptError (mkError "closed" None) false]
  = ([EvSleep 5000000; EvSleep 10000000; EvGo (mkConn "a" "b" false None);
      EvSleep 5000000], 5000000, Some (mkError "closed" None)).
Proof. reflexivity. Qed.

(** ** The redial counter and the client dial *)

Lemma next_negative (r : Z) : r < 0 -> next r = (true, r).
Proof.
  intros H. unfold next.
  destruct (Z.eqb_spec r 0); [lia|]. destruct (Z.gtb_spec r 0); [lia|].
  reflexivity.
Qed.

Lemma next_zero : next 0 = (false, 0).
Proof. reflexivity. Qed.

Lemma next_positive (r : Z) : 0 < r < 2 ^ 31 -> next r = (true, r - 1).
Proof.
  intros H. unfold next.
  destruct (Z.eqb_spec r 0); [lia|]. destruct (Z.gtb_spec r 0); [|lia].
  rewrite wrap_int32_small by lia. reflexivity.
Qed.

Lemma next_answers_negative (k : nat) (r : Z) :
  r < 0 -> next_answers k r = replicate k true.
Proof.
  intros H. induction k as [|k IH]; simpl; [reflexivity|].
  rewrite (next_negative r H), IH. reflexivity.
Qed.

Lemma next_answers_zero (k : nat) : next_answers k 0 = replicate k false.
Proof. induction k as [|k IH]; simpl; [|rewrite IH]; reflexivity. Qed.

Lemma next_answers_positive (k n : nat) :
  Z.of_nat n < 2 ^ 31 ->
  next_answers k (Z.of_nat n)
  = replicate (k `min` n) true ++ replicate (k - n) false.
Proof.
  revert n. induction k as [|k IH]; intros n Hn; [reflexivity|].
  destruct n as [|n].
  - change (Z.of_nat 0) with 0. rewrite next_answers_zero. reflexivity.
  - cbn [next_answers]. rewrite next_positive by lia.
    replace (Z.of_nat (S n) - 1) with (Z.of_nat n) by lia.
    rewrite IH by lia. reflexivity.
Qed.

Section Client.

Variable newSession : Conn -> session.
Variable postDial : session -> session * option Rerror.
Variable rerrDialFailed : Rerror.
Variable Rerror_ToError : Rerror -> error.
Variable dialFunc : nat -> Conn + error.

(** The events of [r] redials that all fail, the first of them being call
    [n] of [dialFunc]. *)
Definition failed_redials (p : peer) (n r : nat) : list event :=
  mjoin ((fun j => [EvSleep (redialInterval p); EvDial j]) <$> seq n r).

Lemma redial_loop_exhausts (p : peer) (errs : nat -> error) :
  (forall i, dialFunc i = inr (errs i)) ->
  forall (r fuel n : nat) (cur : Conn + error),
    Z.of_nat r < 2 ^ 31 -> (r < fuel)%nat ->
    redial_loop dialFunc p fuel (Z.of_nat r) n cur
    = Some (failed_redials p n r, (n + r)%nat,
            match r with O => cur | S _ => inr (errs (n + r - 1)%nat) end).
Proof.
  intros Hfail. induction r as [|r IH]; intros fuel n cur Hr Hfuel.
  - destruct fuel as [|fuel]; [lia|]. simpl. rewrite Nat.add_0_r. reflexivity.
  - destruct fuel as [|fuel]; [lia|]. cbn [redial_loop].
    rewrite next_positive by lia.
    replace (Z.of_nat (S r) - 1) with (Z.of_nat r) by lia.
    rewrite Hfail, (IH fuel (S n) (inr (errs n))) by lia.
    unfold failed_redials. simpl. repeat f_equal; try lia.
    destruct r; f_equal; f_equal; lia.
Qed.

Lemma redial_loop_unbounded (p : peer) (errs : nat -> error) :
  (forall i, dialFunc i = inr (errs i)) ->
  forall (r : Z) (fuel n : nat) (cur : Conn + error),
    r < 0 -> redial_loop dialFunc p fuel r n cur = None.
Proof.
  intros Hfail r fuel. induction fuel as [|fuel IH]; intros n cur Hr.
  - reflexivity.
  - cbn [redial_loop]. rewrite (next_negative r Hr), Hfail, IH by lia.
    reflexivity.
Qed.

Lemma dials_failed_redials (p : peer) (n r : nat) :
  dials (failed_redials p n r) = seq n r
  /\ sleeps (failed_redials p n r) = replicate r (redialInterval p).
Proof.
  unfold failed_redials. revert n.
  induction r as [|r IH]; intros n; [split; reflexivity|].
  destruct (IH (S n)) as [Hd Hs]. simpl. split; f_equal; assumption.
Qed.

(** C5: for a redial budget [n] (an [int32]): negative, [next] answers true
    on every call; zero, it answers false on every call; positive, it
    answers true on the first [n] calls and false on all later ones.  So a
    dial whose every attempt fails makes, for [n >= 0], the first dial and
    exactly [n] redials, each after one sleep, and then returns the
    dial-failed error whose reason is the text of the last dial error (with
    fuel for more than [n] rounds the run is complete); for [n < 0] it
    never returns. *)
Theorem redial_budget (p : peer) (errs : nat -> error) :
  is_int32 (redialTimes p) ->
  let n := redialTimes p in
  (n < 0 -> forall k, next_answers k n = replicate k true)
  /\ (n = 0 -> forall k, next_answers k n = replicate k false)
  /\ (0 < n -> forall k,
        next_answers k n
        = replicate (k `min` Z.to_nat n) true ++ replicate (k - Z.to_nat n) false)
  /\ (0 <= n -> (forall i, dialFunc i = inr (errs i)) ->
      forall fuel, (Z.to_nat n < fuel)%nat ->
      exists evs,
        Dial newSession postDial rerrDialFailed dialFunc fuel p
        = Some (p, evs, S (Z.to_nat n),
                (None,
                 Some (Rerror_SetReason (Error (errs (Z.to_nat n))) rerrDialFailed)))
        /\ dials evs = seq 0 (S (Z.to_nat n))
        /\ sleeps evs = replicate (Z.to_nat n) (redialInterval p))
  /\ (n < 0 -> (forall i, dialFunc i = inr (errs i)) ->
      forall fuel,
        Dial newSession postDial rerrDialFailed dialFunc fuel p = None).
Proof.
  intros [Hlo Hhi] n. split; [|split; [|split; [|split]]].
  - intros Hn k. apply next_answers_negative. exact Hn.
  - intros -> k. apply next_answers_zero.
  - intros Hn k.
    replace (next_answers k n) with (next_answers k (Z.of_nat (Z.to_nat n)))
      by (f_equal; lia).
    apply next_answers_positive. rewrite Z2Nat.id; lia.
  - intros Hn Hfail fuel Hfuel. unfold Dial, newSessionForClient.
    rewrite Hfail. fold n.
    replace (redial_loop dialFunc p fuel n 1 (inr (errs 0%nat)))
      with (redial_loop dialFunc p fuel (Z.of_nat (Z.to_nat n)) 1 (inr (errs 0%nat)))
      by (f_equal; lia).
    rewrite (redial_loop_exhausts p errs Hfail) by (rewrite ?Z2Nat.id; lia).
    destruct (dials_failed_redials p 1 (Z.to_nat n)) as [Hd Hs].
    exists (EvDial 0 :: failed_redials p 1 (Z.to_nat n)). split; [|split].
    + destruct (Z.to_nat n) as [|j] eqn:E; [reflexivity|].
      replace (1 + S j - 1)%nat with (S j) by lia. reflexivity.
    + simpl. rewrite Hd. reflexivity.
    + simpl. exact Hs.
  - intros Hn Hfail fuel. unfold Dial, newSessionForClient.
    rewrite Hfail. fold n. rewrite (redial_loop_unbounded p errs Hfail) by lia.
    reflexivity.
Qed.

End Client.

Definition refused : error := mkError "connect: connection refused" None.
Definition some_rerr : Rerror := mkRerror 105 "Dial Failed" "".
Definition plain_session (conn : Conn) : session :=
  mkSession (mkSocket conn "") statusPreparing false None.
Definition no_hook (s : session) : session * option Rerror := (s, None).
Definition client2 : peer := mkPeer ∅ false 0 0 false "tcp" 1000 2 [].

Lemma redial_budget_witness :
  is_int32 (redialTimes client2)
  /\ next_answers 4 (redialTimes client2) = [true; true; false; false]
  /\ exists evs,
       Dial plain_session no_hook some_rerr (fun _ => inr refused) 3 client2
       = Some (client2, evs, 3%nat,
               (None, Some (mkRerror 105 "Dial Failed" "connect: connection refused")))
       /\ dials evs = [0; 1; 2]%nat
       /\ sleeps evs = [1000; 1000].
Proof.
  assert (Hi : is_int32 (redialTimes client2)) by (unfold is_int32; simpl; lia).
  pose proof (redial_budget plain_session no_hook some_rerr
                (fun _ => inr refused) client2 (fun _ => refused) Hi)
    as (_ & _ & Hpos & Hdial & _).
  split; [exact Hi|]. split.
  - apply (Hpos ltac:(simpl; lia) 4%nat).
  - apply (Hdial ltac:(simpl; lia) (fun _ => eq_refl) 3%nat ltac:(simpl; lia)).
Defined.

Example dial_unbounded_succeeds_third :
  Dial plain_session no_hook some_rerr
    (fun i => if (i <? 2)%nat then inr refused
              else inl (mkConn "127.0.0.1:5000" "10.0.0.1:9090" false None))
    5 (mkPeer ∅ false 0 0 false "tcp" 1000 (-1) [])
  = Some (mkPeer
            {["127.0.0.1:5000" :=
               mkSession (mkSocket (mkConn "127.0.0.1:5000" "10.0.0.1:9090" false None)
                                   "127.0.0.1:5000") statusPreparing true None]}
            false 0 0 false "tcp" 1000 (-1) [],
          [EvDial 0; EvSleep 1000; EvDial 1; EvSleep 1000; EvDial 2;
           EvNewSession (mkConn "127.0.0.1:5000" "10.0.0.1:9090" false None);
           EvPostDial (mkConn "127.0.0.1:5000" "10.0.0.1:9090" false None);
           EvStartReadAndHandle "127.0.0.1:5000"; EvSessHubSet "127.0.0.1:5000"],
          3%nat,
          (Some (mkSession (mkSocket (mkConn "127.0.0.1:5000" "10.0.0.1:9090" false None)
                                     "127.0.0.1:5000") statusPreparing true None),
           None)).
Proof. reflexivity. Qed.

(** ** The identifier of a session across a redial *)

Section Renew.

Variable postDial : session -> session * option Rerror.
Variable Rerror_ToError : Rerror -> error.
Variable dialFunc : nat -> Conn + error.


End Renew.

Definition old_conn : Conn := mkConn "127.0.0.1:5000" "10.0.0.1:9090" false None.
Definition new_conn : Conn := mkConn "127.0.0.1:5001" "10.0.0.1:9090" false None.
Definition default_id_session : session :=
  mkSession (mkSocket old_conn "127.0.0.1:5000") statusOk true None.
Definition named_session : session :=
  mkSession (mkSocket old_conn "client-42") statusOk true None.


Example renew_keeps_assigned_identifier :
  ID (renewSessionForClient no_hook (fun _ => refused) (fun _ => inl new_conn)
        client2 named_session 1).1.1.2 = "client-42".
Proof. reflexivity. Qed.

Example renew_reassigns_default_identifier :
  renewSessionForClient no_hook (fun _ => refused) (fun _ => inl new_conn)
    client2 default_id_session 1
  = (sessHub_Set (mkSession (mkSocket new_conn "127.0.0.1:5001") statusOk true None)
       client2,
     mkSession (mkSocket new_conn "127.0.0.1:5001") statusOk true None,
     [EvDial 1; EvConnClose old_conn; EvPostDial new_conn;
      EvStartReadAndHandle "127.0.0.1:5001"; EvSessHubSet "127.0.0.1:5001"],
     None).
Proof. reflexivity. Qed.

(** ** The handshake of an accepted connection *)

Lemma only_after_nil (P Q : event -> Prop) : only_after P Q [].
Proof. intros pre x post H. destruct pre; discriminate. Qed.

Lemma only_after_skip (P Q : event -> Prop) (a : event) (evs : list event) :
  ~ Q a -> only_after P Q evs -> only_after P Q (a :: evs).
Proof.
  intros Ha H pre x post E Hx. destruct pre as [|b pre]; simpl in E.
  - injection E as <- _. contradiction.
  - injection E as <- E. destruct (H pre x post E Hx) as (y & Hy & HP).
    exists y. split; [right; exact Hy | exact HP].
Qed.

Lemma only_after_seen (P Q : event -> Prop) (a : event) (evs : list event) :
  P a -> ~ Q a -> only_after P Q (a :: evs).
Proof.
  intros HP Ha pre x post E Hx. destruct pre as [|b pre]; simpl in E.
  - injection E as <- _. contradiction.
  - injection E as <- _. exists a. split; [left | exact HP].
Qed.

Lemma only_after_app (P Q : event -> Prop) (pre evs : list event) :
  Forall (fun a => ~ Q a) pre -> only_after P Q evs -> only_after P Q (pre ++ evs).
Proof.
  intros H Hevs. induction H as [|a pre Ha _ IH]; simpl; [exact Hevs|].
  apply only_after_skip; assumption.
Qed.

Section Accept.

Variable newSession : Conn -> session.
Variable postAccept : session -> session * option Rerror.

(** The deadlines the accept task sets before the handshake. *)
Definition deadlines (p : peer) (conn : Conn) : list event :=
  (if defaultSessionAge p >? 0
   then [EvSetReadDeadline conn (defaultSessionAge p)] else [])
  ++ (if defaultContextAge p >? 0
      then [EvSetReadDeadline conn (defaultContextAge p)] else []).

Lemma deadlines_no_session (p : peer) (conn : Conn) :
  Forall (fun a => ~ session_event a) (deadlines p conn).
Proof.
  unfold deadlines.
  destruct (defaultSessionAge p >? 0), (defaultContextAge p >? 0);
    repeat constructor; simpl; tauto.
Qed.

Lemma accept_task_tls (p : peer) (conn : Conn) :
  Conn_isTLS conn = true ->
  accept_task newSession postAccept p conn
  = match Conn_Handshake conn with
    | Some err => (p, deadlines p conn ++ [EvHandshake conn (Some err)])
    | None =>
        match postAccept (newSession conn) with
        | (sess, Some _) =>
            (p, deadlines p conn
                ++ [EvHandshake conn None; EvNewSession conn; EvPostAccept conn;
                    EvSessionClose (ID sess)])
        | (sess, None) =>
            (sessHub_Set sess p,
             deadlines p conn
               ++ [EvHandshake conn None; EvNewSession conn; EvPostAccept conn;
                   EvSessHubSet (ID sess); EvStartReadAndHandle (ID sess)])
        end
    end.
Proof.
  intros Htls. unfold accept_task, deadlines. rewrite Htls.
  destruct (Conn_Handshake conn) as [err|];
    [|destruct (postAccept (newSession conn)) as [sess [rerr|]]];
    destruct (defaultSessionAge p >? 0), (defaultContextAge p >? 0);
    reflexivity.
Qed.

(** C7: for an accepted TLS connection, the accept task runs the handshake
    before anything that concerns a session: every event that creates,
    vets, registers or starts a session comes after the event of the
    handshake returning no error.  When the handshake fails the task ends
    there: the peer (so the session hub) is as before and no such event
    occurs at all; and the hub changes only if the handshake succeeded. *)
Theorem accept_task_handshake_first (p : peer) (conn : Conn) :
  Conn_isTLS conn = true ->
  let r := accept_task newSession postAccept p conn in
  only_after (eq (EvHandshake conn None)) session_event r.2
  /\ (forall err, Conn_Handshake conn = Some err ->
        r.1 = p
        /\ r.2 = deadlines p conn ++ [EvHandshake conn (Some err)]
        /\ forall ev, ev ∈ r.2 -> ~ session_event ev)
  /\ (forall id, EvSessHubSet id ∈ r.2 ->
        Conn_Handshake conn = None
        /\ exists sess, postAccept (newSession conn) = (sess, None)
                        /\ id = ID sess /\ r.1 = sessHub_Set sess p)
  /\ (r.1 <> p -> Conn_Handshake conn = None).
Proof.
  intros Htls r. subst r. rewrite (accept_task_tls p conn Htls).
  destruct (Conn_Handshake conn) as [err|] eqn:Hh.
  - cbn [fst snd]. split; [|split; [|split]].
    + apply only_after_app; [apply deadlines_no_session|].
      apply only_after_skip; [simpl; tauto | apply only_after_nil].
    + intros err' [= <-]. split; [reflexivity|]. split; [reflexivity|].
      intros ev Hev. apply elem_of_app in Hev as [Hev|Hev].
      * pose proof (deadlines_no_session p conn) as Hd.
        rewrite Forall_forall in Hd. apply Hd, Hev.
      * apply list_elem_of_singleton in Hev as ->. simpl. tauto.
    + intros id Hev. exfalso. apply elem_of_app in Hev as [Hev|Hev].
      * pose proof (deadlines_no_session p conn) as Hd.
        rewrite Forall_forall in Hd. apply (Hd _ Hev). exact I.
      * apply list_elem_of_singleton in Hev. discriminate.
    + intros Hne. contradiction.
  - destruct (postAccept (newSession conn)) as [sess [rerr|]] eqn:Hpa;
      cbn [fst snd]; (split; [|split; [|split]]);
      try (apply only_after_app; [apply deadlines_no_session|];
           apply only_after_seen; [reflexivity | simpl; tauto]);
      try (intros err' [=]); try (intros _; reflexivity).
    + intros id Hev. exfalso. apply elem_of_app in Hev as [Hev|Hev].
      * pose proof (deadlines_no_session p conn) as Hd.
        rewrite Forall_forall in Hd. apply (Hd _ Hev). exact I.
      * repeat (apply elem_of_cons in Hev as [Hev|Hev]; [discriminate|]).
        apply elem_of_nil in Hev. exact Hev.
    + intros id Hev. split; [reflexivity|]. exists sess.
      split; [reflexivity|]. split; [|reflexivity].
      apply elem_of_app in Hev as [Hev|Hev].
      * exfalso. pose proof (deadlines_no_session p conn) as Hd.
        rewrite Forall_forall in Hd. apply (Hd _ Hev). exact I.
      * repeat (apply elem_of_cons in Hev as [Hev|Hev];
                [first [discriminate | injection Hev as ->; reflexivity]|]).
        apply elem_of_nil in Hev. destruct Hev.
Qed.

End Accept.

Definition tls_conn_bad : Conn :=
  mkConn "10.0.0.1:9090" "10.0.0.7:40000" true
         (Some (mkError "tls: first record does not look like a TLS handshake" None)).
Definition tls_conn_ok : Conn :=
  mkConn "10.0.0.1:9090" "10.0.0.7:40001" true None.
Definition remote_id_session (conn : Conn) : session :=
  mkSession (mkSocket conn (Conn_RemoteAddr conn)) statusPreparing false None.
Definition server : peer := mkPeer ∅ false 30 0 true "tcp" 0 0 [].

Lemma accept_task_handshake_first_witness :
  Conn_isTLS tls_conn_bad = true
  /\ (accept_task remote_id_session no_hook server tls_conn_bad).1 = server
  /\ only_after (eq (EvHandshake tls_conn_ok None)) session_event
       (accept_task remote_id_session no_hook server tls_conn_ok).2.
Proof.
  split; [reflexivity|]. split.
  - destruct (accept_task_handshake_first remote_id_session no_hook server
                tls_conn_bad eq_refl) as (_ & Hfail & _).
    exact (proj1 (Hfail _ eq_refl)).
  - exact (proj1 (accept_task_handshake_first remote_id_session no_hook server
                    tls_conn_ok eq_refl)).
Defined.

Example accept_task_failed_handshake :
  accept_task remote_id_session no_hook server tls_conn_bad
  = (server,
     [EvSetReadDeadline tls_conn_bad 30;
      EvHandshake tls_conn_bad (Conn_Handshake tls_conn_bad)]).
Proof. reflexivity. Qed.

Example accept_task_good_handshake :
  accept_task remote_id_session no_hook server tls_conn_ok
  = (sessHub_Set (remote_id_session tls_conn_ok) server,
     [EvSetReadDeadline tls_conn_ok 30; EvHandshake tls_conn_ok None;
      EvNewSession tls_conn_ok; EvPostAccept tls_conn_ok;
      EvSessHubSet "10.0.0.7:40001"; EvStartReadAndHandle "10.0.0.7:40001"]).
Proof. reflexivity. Qed.

(** ** Close *)



(** A peer with one TCP listener whose [Close] fails, and no session. *)
Definition lis_err : error := mkError "close tcp: use of closed network connection" None.
Definition tcp_listener : Listener := mkListener "0.0.0.0:9090" false (Some lis_err).
Definition quic_listener : Listener :=
  mkListener "0.0.0.0:9091" true (Some (mkError "quic: server closed" None)).



Definition failing_session : session :=
  mkSession (mkSocket old_conn "s1") statusOk false (Some refused).
Definition quiet_session : session :=
  mkSession (mkSocket new_conn "s2") statusOk false None.
Definition busy_server : peer :=
  mkPeer {["s1" := failing_session; "s2" := quiet_session]} false 0 0 false
         "tcp" 0 0 [tcp_listener; quic_listener].


Example Close_busy_server :
  (Close busy_server [quiet_session; failing_session]).2
  = [refused; mkError "quic: server closed" None].
Proof. reflexivity. Qed.

Example Close_twice :
  (Close (Close busy_server [quiet_session; failing_session]).1.1
         [quiet_session; failing_session]).2
  = [mkError "panic:close of closed channel" None].
Proof. reflexivity. Qed.

End PeerProperties.

(* ===================================================================== *)
(** * Further properties of the message object *)
(* ===================================================================== *)

Module MessageExtras.
Import socket.

Section Facts.
Context {Value Ctx : Type}.
Abbreviation message := (message Value Ctx).
Abbreviation Codec := (Codec Value).

(** ** The pool *)

Lemma messagePool_Get_fresh (pick : option nat) (pool : list message) :
  Forall (fun m => m = fst (NewMessage [])) pool ->
  fst (messagePool_Get pick pool) = fst (NewMessage [])
  /\ Forall (fun m => m = fst (NewMessage [])) (snd (messagePool_Get pick pool)).
Proof.
  intros H. unfold messagePool_Get. destruct pick as [i|]; [|split; [reflexivity | exact H]].
  destruct (pool !! i) as [m|] eqn:E; [|split; [reflexivity | exact H]].
  split.
  - rewrite Forall_forall in H. apply H. eapply list_elem_of_lookup_2, E.
  - apply Forall_delete, H.
Qed.

Lemma pool_run_fresh (calls : list (@pool_call Value Ctx)) (pool : list message) :
  Forall (fun m => m = fst (NewMessage [])) pool ->
  fst (pool_run calls pool)
  = omap (fun c => match c with
                   | CallGet _ settings => Some (NewMessage settings)
                   | CallPut _ => None
                   end) calls
  /\ Forall (fun m => m = fst (NewMessage [])) (snd (pool_run calls pool)).
Proof.
  revert pool. induction calls as [|[pick settings|m] calls IH]; intros pool H.
  - split; [reflexivity | exact H].
  - cbn [pool_run]. unfold GetMessage.
    destruct (messagePool_Get_fresh pick pool H) as [Hm Hp].
    destruct (messagePool_Get pick pool) as [m pool'].
    cbn [fst snd] in Hm, Hp. subst m.
    destruct (IH pool' Hp) as [IH1 IH2].
    destruct (pool_run calls pool') as [rs pool''].
    cbn [fst snd] in *. split; [|exact IH2].
    cbn [omap list_omap]. rewrite IH1. reflexivity.
  - cbn [pool_run omap list_omap]. apply IH. unfold PutMessage.
    constructor; [reflexivity | exact H].
Qed.

(** X1: over any run of [GetMessage] and [PutMessage] calls on a pool that
    starts empty, every [GetMessage(settings)] gives what
    [NewMessage(settings)] gives, whichever pooled message [sync.Pool]
    picks, and whatever the messages put back held; the pool only ever
    holds messages equal to a new one. *)
Theorem GetMessage_as_NewMessage (calls : list (@pool_call Value Ctx)) :
  fst (pool_run calls [])
  = omap (fun c => match c with
                   | CallGet _ settings => Some (NewMessage settings)
                   | CallPut _ => None
                   end) calls
  /\ Forall (fun m => m = fst (NewMessage [])) (snd (pool_run calls [])).
Proof. apply pool_run_fresh. constructor. Qed.

(** ** UnmarshalBody on any input *)

(** The body [UnmarshalBody] works on: the one the new-body function makes
    when the message has none, the message's own otherwise. *)
Definition body_in (m : message) : body_value Value :=
  match body m, newBodyFunc m with
  | BodyNil, Some f => snd (f (as_Header m))
  | b, _ => b
  end.

(** The message as [UnmarshalBody] has it once the new-body function, if
    it is called, has run. *)
Definition prepared (m : message) : message :=
  match body m, newBodyFunc m with
  | BodyNil, Some f =>
      let '(h, b) := f (as_Header m) in set_body b (with_Header h m)
  | _, _ => m
  end.

Lemma UnmarshalBody_unfold (registry : gmap Z Codec) (bodyBytes : list byte)
  (m : message) :
  UnmarshalBody registry bodyBytes m
  = match bodyBytes with
    | [] => (prepared m, Ret None)
    | _ :: _ =>
        match body (prepared m) with
        | BodyNil => (prepared m, Ret None)
        | BodyBytesPtr None => (prepared m, Panic "nil pointer dereference")
        | BodyBytesPtr (Some _) =>
            (set_body (BodyBytesPtr (Some bodyBytes)) (prepared m), Ret None)
        | b =>
            match registry !! bodyCodec (prepared m) with
            | None => (prepared m, Ret (Some (ErrUnknownCodec (bodyCodec (prepared m)))))
            | Some c =>
                (set_body (fst (Unmarshal c bodyBytes b)) (prepared m),
                 Ret (snd (Unmarshal c bodyBytes b)))
            end
        end
    end.
Proof.
  unfold UnmarshalBody. fold (prepared m).
  destruct bodyBytes as [|x bs]; [reflexivity|].
  destruct (Z.eqb_spec (Z.of_nat (length (x :: bs))) 0) as [E|_];
    [simpl in E; lia|].
  unfold codec_Get.
  destruct (body (prepared m)) as [|[b|]|b|v]; try reflexivity;
    destruct (registry !! bodyCodec (prepared m)) as [c|]; try reflexivity;
    destruct (Unmarshal c (x :: bs) _); reflexivity.
Qed.

Lemma prepared_frame (m : message) :
  bodyCodec (prepared m) = bodyCodec m
  /\ newBodyFunc (prepared m) = newBodyFunc m
  /\ xferPipe (prepared m) = xferPipe m
  /\ size (prepared m) = size m
  /\ ctx (prepared m) = ctx m
  /\ body (prepared m) = body_in m
  /\ (body m <> BodyNil \/ newBodyFunc m = None -> prepared m = m).
Proof.
  unfold prepared, body_in.
  destruct (body m) eqn:Eb, (newBodyFunc m) as [f|] eqn:Ef;
    try destruct (f (as_Header m)) as [h b'];
    repeat (split; [first [reflexivity | assumption]|]);
    try (intros _; reflexivity).
  intros [H|H]; congruence.
Qed.

(** X2: whatever the bytes, the registry and the outcome (error and panic
    included), [UnmarshalBody] leaves bodyCodec, the new-body function, the
    filter pipe, the size and the context as they were; and unless it
    called the new-body function (a nil body with the function set), also
    seq, mtype, the service method and meta. *)
Theorem UnmarshalBody_frame (registry : gmap Z Codec) (bodyBytes : list byte)
  (m : message) :
  let m' := fst (UnmarshalBody registry bodyBytes m) in
  bodyCodec m' = bodyCodec m
  /\ newBodyFunc m' = newBodyFunc m
  /\ xferPipe m' = xferPipe m
  /\ size m' = size m
  /\ ctx m' = ctx m
  /\ (body m <> BodyNil \/ newBodyFunc m = None ->
      seq m' = seq m /\ mtype m' = mtype m
      /\ serviceMethod m' = serviceMethod m /\ meta m' = meta m).
Proof.
  cbv zeta.
  destruct (prepared_frame m) as (H1 & H2 & H3 & H4 & H5 & _ & H7).
  assert (Hshape : fst (UnmarshalBody registry bodyBytes m) = prepared m
                   \/ exists b, fst (UnmarshalBody registry bodyBytes m)
                               = set_body b (prepared m)).
  { rewrite UnmarshalBody_unfold. destruct bodyBytes as [|x bs]; [left; reflexivity|].
    destruct (body (prepared m)) as [|[b|]|b|v]; eauto;
      destruct (registry !! bodyCodec (prepared m)) as [c|]; eauto. }
  destruct Hshape as [-> | [b ->]]; cbn [set_body bodyCodec newBodyFunc xferPipe
    size ctx seq mtype serviceMethod meta];
    repeat (split; [assumption|]); intros H; rewrite (H7 H); auto.
Qed.

(** X3: [UnmarshalBody] panics exactly when the bytes are not empty and the
    body it works on is a nil byte-buffer pointer. *)
Theorem UnmarshalBody_panics (registry : gmap Z Codec) (bodyBytes : list byte)
  (m : message) :
  (exists v, snd (UnmarshalBody registry bodyBytes m) = Panic v)
  <-> bodyBytes <> [] /\ body_in m = BodyBytesPtr None.
Proof.
  destruct (prepared_frame m) as (_ & _ & _ & _ & _ & H6 & _).
  rewrite UnmarshalBody_unfold, <- H6.
  destruct bodyBytes as [|x bs].
  - split; [intros [v H]; discriminate | intros [H _]; congruence].
  - destruct (body (prepared m)) as [|[b|]|b|v];
      try destruct (registry !! bodyCodec (prepared m)) as [c|]; cbn [snd];
      (split; [intros [v0 H]; try discriminate; split; congruence
              | intros [_ H]; try discriminate; eexists; reflexivity]).
Qed.

(** X4: a message with no body and no new-body function takes any bytes
    without error, without looking at the registry, and stays as it was:
    the bytes are dropped. *)
Theorem UnmarshalBody_no_body (registry : gmap Z Codec) (bodyBytes : list byte)
  (m : message) :
  body m = BodyNil -> newBodyFunc m = None ->
  UnmarshalBody registry bodyBytes m = (m, Ret None).
Proof.
  intros Hb Hf. rewrite UnmarshalBody_unfold.
  destruct (prepared_frame m) as (_ & _ & _ & _ & _ & _ & H7).
  rewrite (H7 (or_intror Hf)), Hb. destruct bodyBytes; reflexivity.
Qed.

(** X5: bytes marshalled from a byte buffer ([[]byte] or a non-nil
    [*[]byte]) and unmarshalled into a message whose body is a non-nil
    [*[]byte] come back without error and without a codec; the target then
    holds the source's bytes, except that an empty payload leaves the
    target's old bytes in place. *)
Theorem byte_buffer_round_trip (reg reg' : gmap Z Codec) (src dst : message)
  (b old : list byte) :
  body src = BodyBytes b \/ body src = BodyBytesPtr (Some b) ->
  body dst = BodyBytesPtr (Some old) ->
  let r := UnmarshalBody reg' (fst (MarshalBody reg src)) dst in
  snd (MarshalBody reg src) = None
  /\ snd r = Ret None
  /\ (b <> [] -> fst r = set_body (BodyBytesPtr (Some b)) dst
                /\ MarshalBody reg (fst r) = (b, None))
  /\ (b = [] -> fst r = dst /\ MarshalBody reg (fst r) = (old, None)).
Proof.
  intros Hsrc Hdst.
  assert (Hm : MarshalBody reg src = (b, None))
    by (unfold MarshalBody; destruct Hsrc as [-> | ->]; reflexivity).
  rewrite Hm. cbn [fst snd]. rewrite UnmarshalBody_unfold.
  destruct (prepared_frame dst) as (_ & _ & _ & _ & _ & _ & H7).
  assert (Hnn : body dst <> BodyNil) by congruence.
  rewrite (H7 (or_introl Hnn)), Hdst.
  destruct b as [|x b]; cbn [fst snd].
  - split; [reflexivity|]. split; [reflexivity|]. split; [congruence|].
    intros _. split; [reflexivity|]. unfold MarshalBody. rewrite Hdst. reflexivity.
  - split; [reflexivity|]. split; [reflexivity|]. split; [|discriminate].
    intros _. split; reflexivity.
Qed.

(** X6: a body of type [[]byte] is marshalled without a codec but not
    unmarshalled without one: feeding a message whose body is a non-empty
    [[]byte] its own marshalled bytes asks the registry for [bodyCodec],
    and fails with unknown-codec, the message unchanged, when that id is
    not registered. *)
Theorem bytes_body_needs_codec (registry : gmap Z Codec) (m : message)
  (b : list byte) :
  body m = BodyBytes b -> b <> [] -> registry !! bodyCodec m = None ->
  MarshalBody registry m = (b, None)
  /\ UnmarshalBody registry (fst (MarshalBody registry m)) m
     = (m, Ret (Some (ErrUnknownCodec (bodyCodec m)))).
Proof.
  intros Hb Hne Hreg.
  assert (Hm : MarshalBody registry m = (b, None))
    by (unfold MarshalBody; rewrite Hb; reflexivity).
  rewrite Hm. split; [reflexivity|]. cbn [fst]. rewrite UnmarshalBody_unfold.
  destruct (prepared_frame m) as (_ & _ & _ & _ & _ & _ & H7).
  assert (Hnn : body m <> BodyNil) by congruence.
  rewrite (H7 (or_introl Hnn)), Hb, Hreg.
  destruct b as [|x b]; [congruence | reflexivity].
Qed.

End Facts.

(** ** The size limit over time *)

Lemma limit_after_snoc (calls : list Z) (x : Z) :
  limit_after (calls ++ [x]) = SetMessageSizeLimit x.
Proof. unfold limit_after. rewrite foldl_snoc. reflexivity. Qed.

(** X7: after any calls of [SetMessageSizeLimit] with [uint32] arguments,
    the limit depends on the last call only: it is that argument, or the
    largest [uint32] when the argument was 0 or there was no call; so the
    limit is never 0 and always a [uint32]. *)
Theorem limit_after_last (calls : list Z) :
  Forall is_uint32 calls ->
  limit_after calls
  = match last calls with
    | Some x => if x =? 0 then MaxUint32 else x
    | None => MaxUint32
    end
  /\ 1 <= limit_after calls <= MaxUint32.
Proof.
  intros H. destruct calls as [|x calls _] using rev_ind.
  - split; [reflexivity|]. unfold limit_after, messageSizeLimit_init, MaxUint32.
    simpl. lia.
  - apply Forall_app in H as [_ Hx]. rewrite Forall_singleton in Hx.
    rewrite limit_after_snoc, last_snoc.
    unfold SetMessageSizeLimit, is_uint32, MaxUint32 in *.
    destruct (Z.leb_spec x 0), (Z.eqb_spec x 0); split; lia.
Qed.

(** X8: while the limit is the default one (no call of
    [SetMessageSizeLimit] yet, or the last one with argument 0), [SetSize]
    accepts every [uint32] size; and whatever the calls were, it accepts
    sizes 0 and 1. *)
Theorem SetSize_default_limit {Value Ctx : Type} (calls : list Z) (sz : Z)
  (m : socket.message Value Ctx) :
  Forall is_uint32 calls -> is_uint32 sz ->
  (last calls = None \/ last calls = Some 0 ->
     SetSize (limit_after calls) sz m = (set_size sz m, None))
  /\ (sz <= 1 -> SetSize (limit_after calls) sz m = (set_size sz m, None)).
Proof.
  intros Hc [Hlo Hhi]. destruct (limit_after_last calls Hc) as [Hl Hr].
  unfold SetSize, checkMessageSize. split.
  - intros [E|E]; rewrite E in Hl; simpl in Hl; rewrite Hl;
      destruct (Z.gtb_spec sz MaxUint32); try lia; reflexivity.
  - intros H1. destruct (Z.gtb_spec sz (limit_after calls)); [lia | reflexivity].
Qed.

(** *** The properties at concrete messages *)

Definition full : socket.message string unit :=
  mkMessage 7 1 "/home/test" [("peer_id", "110")] 106
            (BodyOther "henrylee2cn") None [103] 42 (Some tt).
Definition buffer (bs : list byte) : socket.message string unit :=
  mkMessage 0 0 "" [] 0 (BodyBytesPtr (Some bs)) None [] 0 None.
Definition slice (bs : list byte) : socket.message string unit :=
  mkMessage 0 0 "" [] 106 (BodyBytes bs) None [] 0 None.

Example pool_reuse :
  fst (pool_run [CallPut full; CallGet (Some 0%nat) [Some (WithMtype 3)];
                 CallGet (Some 0%nat) []] [])
  = [(mkMessage 0 3 "" [] 0 BodyNil None [] 0 None, None);
     (mkMessage 0 0 "" [] 0 BodyNil None [] 0 None, None)].
Proof. reflexivity. Qed.

Example UnmarshalBody_nil_pointer_panics :
  snd (UnmarshalBody (∅ : gmap Z (Codec string)) [x61]
         (mkMessage 0 0 "" [] 0 (BodyBytesPtr None) None [] 0 (None : option unit)))
  = Panic "nil pointer dereference".
Proof. reflexivity. Qed.

Definition bare : socket.message string unit :=
  mkMessage 1 2 "m" [] 9 BodyNil None [] 0 None.

Lemma UnmarshalBody_no_body_witness :
  UnmarshalBody (∅ : gmap Z (Codec string)) [x61; x62] bare = (bare, Ret None).
Proof. apply (UnmarshalBody_no_body ∅ [x61; x62] bare eq_refl eq_refl). Defined.

Lemma byte_buffer_round_trip_witness :
  fst (UnmarshalBody (∅ : gmap Z (Codec string))
         (fst (MarshalBody (∅ : gmap Z (Codec string)) (slice [x61; x62])))
         (buffer [x7a]))
  = buffer [x61; x62]
  /\ fst (UnmarshalBody (∅ : gmap Z (Codec string))
           (fst (MarshalBody (∅ : gmap Z (Codec string)) (slice [])))
           (buffer [x7a]))
     = buffer [x7a].
Proof.
  split.
  - destruct (byte_buffer_round_trip ∅ ∅ (slice [x61; x62]) (buffer [x7a])
                [x61; x62] [x7a] (or_introl eq_refl) eq_refl)
      as (_ & _ & Hfull & _).
    apply (Hfull ltac:(discriminate)).
  - destruct (byte_buffer_round_trip ∅ ∅ (slice []) (buffer [x7a])
                [] [x7a] (or_introl eq_refl) eq_refl)
      as (_ & _ & _ & Hempty).
    apply (Hempty eq_refl).
Defined.

Lemma bytes_body_needs_codec_witness :
  UnmarshalBody (∅ : gmap Z (Codec string))
    (fst (MarshalBody (∅ : gmap Z (Codec string)) (slice [x61]))) (slice [x61])
  = (slice [x61], Ret (Some (ErrUnknownCodec 106))).
Proof.
  apply (bytes_body_needs_codec ∅ (slice [x61]) [x61] eq_refl
           ltac:(discriminate) eq_refl).
Defined.

Lemma limit_after_last_witness :
  Forall is_uint32 [1024; 0; 4096]
  /\ limit_after [1024; 0; 4096] = 4096
  /\ limit_after [1024; 0] = MaxUint32.
Proof.
  assert (H1 : Forall is_uint32 [1024; 0; 4096])
    by (repeat constructor; unfold MaxUint32; lia).
  assert (H2 : Forall is_uint32 [1024; 0])
    by (repeat constructor; unfold MaxUint32; lia).
  split; [exact H1|]. split.
  - apply (limit_after_last _ H1).
  - apply (limit_after_last _ H2).
Defined.

Lemma SetSize_default_limit_witness :
  SetSize (limit_after [1024; 0]) 4294967295 full
  = (set_size 4294967295 full, None).
Proof.
  assert (H2 : Forall is_uint32 [1024; 0])
    by (repeat constructor; unfold MaxUint32; lia).
  assert (H3 : is_uint32 4294967295) by (unfold is_uint32, MaxUint32; lia).
  destruct (SetSize_default_limit [1024; 0] 4294967295 full H2 H3) as [Hd _].
  apply Hd. right. reflexivity.
Defined.

End MessageExtras.

(* ===================================================================== *)
(** * Further properties of the peer *)
(* ===================================================================== *)

Module PeerExtras.
Import tp.

Lemma dials_app (xs ys : list event) : dials (xs ++ ys) = dials xs ++ dials ys.
Proof.
  induction xs as [|x xs IH]; [reflexivity|].
  destruct x; simpl; rewrite IH; reflexivity.
Qed.

Lemma sleeps_app (xs ys : list event) : sleeps (xs ++ ys) = sleeps xs ++ sleeps ys.
Proof.
  induction xs as [|x xs IH]; [reflexivity|].
  destruct x; simpl; rewrite IH; reflexivity.
Qed.

Lemma next_cases (r : Z) :
  is_int32 r ->
  (r = 0 /\ next r = (false, 0))
  \/ (0 < r /\ next r = (true, r - 1))
  \/ (r < 0 /\ next r = (true, r)).
Proof.
  intros [Hlo Hhi]. destruct (Z.lt_trichotomy r 0) as [H|[H|H]].
  - right. right. split; [exact H | apply PeerProperties.next_negative, H].
  - left. subst r. split; reflexivity.
  - right. left. split; [exact H | apply PeerProperties.next_positive; lia].
Qed.

(** ** Dial *)

Section Dialing.

Variable newSession : Conn -> session.
Variable postDial : session -> session * option Rerror.
Variable rerrDialFailed : Rerror.
Variable dialFunc : nat -> Conn + error.

Abbreviation redial_loop := (tp.redial_loop dialFunc).
Abbreviation Dial := (tp.Dial newSession postDial rerrDialFailed dialFunc).

(** The session [newSessionForClient] hands to the [postDial] hooks. *)
Definition dialed (p : peer) (conn : Conn) : session :=
  let sess := newSession conn in
  let sess := if redialTimes p =? 0 then sess else set_redial true sess in
  set_socket (socket_SetID (LocalAddr sess) (sess_socket sess)) sess.


(** What [Dial] does once the dialling is over. *)
Lemma Dial_unfold (fuel : nat) (p : peer) :
  Dial fuel p
  = match (match dialFunc 0 with
           | inr dialErr => redial_loop p fuel (redialTimes p) 1 (inr dialErr)
           | inl conn => Some ([], 1%nat, inl conn)
           end) with
    | None => None
    | Some (evs, n, inr dialErr) =>
        Some (p, EvDial 0 :: evs, n,
              (None, Some (Rerror_SetReason (Error dialErr) rerrDialFailed)))
    | Some (evs, n, inl conn) =>
        match postDial (dialed p conn) with
        | (sess, Some rerr) =>
            Some (p, (EvDial 0 :: evs ++ [EvNewSession conn; EvPostDial conn])
                     ++ [EvSessionClose (ID sess)], n, (None, Some rerr))
        | (sess, None) =>
            Some (sessHub_Set sess p,
                  (EvDial 0 :: evs ++ [EvNewSession conn; EvPostDial conn])
                    ++ [EvStartReadAndHandle (ID sess); EvSessHubSet (ID sess)],
                  n, (Some sess, None))
        end
    end.
Proof. reflexivity. Qed.

(** What the dialling of [Dial] yields: the events, the number of calls and
    the last values of [conn, dialErr]. *)
Definition dialling (fuel : nat) (p : peer)
  : option (list event * nat * (Conn + error)) :=
  match dialFunc 0 with
  | inr dialErr =>
      match redial_loop p fuel (redialTimes p) 1 (inr dialErr) with
      | Some (evs, n, cur) => Some (EvDial 0 :: evs, n, cur)
      | None => None
      end
  | inl conn => Some ([EvDial 0], 1%nat, inl conn)
  end.


Lemma Dial_dialling (fuel : nat) (p : peer) :
  Dial fuel p
  = match dialling fuel p with
    | None => None
    | Some (evs, n, inr dialErr) =>
        Some (p, evs, n,
              (None, Some (Rerror_SetReason (Error dialErr) rerrDialFailed)))
    | Some (evs, n, inl conn) =>
        match postDial (dialed p conn) with
        | (sess, Some rerr) =>
            Some (p, evs ++ [EvNewSession conn; EvPostDial conn;
                             EvSessionClose (ID sess)], n, (None, Some rerr))
        | (sess, None) =>
            Some (sessHub_Set sess p,
                  evs ++ [EvNewSession conn; EvPostDial conn;
                          EvStartReadAndHandle (ID sess); EvSessHubSet (ID sess)],
                  n, (Some sess, None))
        end
    end.
Proof.
  rewrite Dial_unfold. unfold dialling.
  destruct (dialFunc 0) as [conn|dialErr].
  - destruct (postDial (dialed p conn)) as [sess [rerr|]]; reflexivity.
  - destruct (redial_loop p fuel (redialTimes p) 1 (inr dialErr))
      as [[[evs n] [conn|e]]|]; try reflexivity.
    destruct (postDial (dialed p conn)) as [sess [rerr|]];
      simpl; rewrite <- !app_assoc; reflexivity.
Qed.


(** X10: a [Dial] that returns gives either a session and no error, or an
    error and no session.  With an error the peer is as before; with a
    session the peer differs only by its hub, where the session is
    registered and found by [GetSession] under its identifier, and the hub
    has grown by at most one session. *)
Theorem Dial_outcome (fuel : nat) (p p' : peer) (evs : list event) (n : nat)
  (s : option session) (e : option Rerror) :
  Dial fuel p = Some (p', evs, n, (s, e)) ->
  (s = None <-> e <> None)
  /\ (e <> None -> p' = p /\ forall id, EvSessHubSet id ∉ evs)
  /\ (forall sess, s = Some sess ->
        p' = sessHub_Set sess p
        /\ GetSession (ID sess) p' = Some sess
        /\ EvSessHubSet (ID sess) ∈ evs
        /\ (CountSession p <= CountSession p' <= S (CountSession p))%nat
        /\ listeners p' = listeners p
        /\ closeCh_closed p' = closeCh_closed p).
Proof.
  intros H. rewrite Dial_dialling in H.
  destruct (dialling fuel p) as [[[evs0 n0] cur]|] eqn:Hd; [|discriminate].
  assert (Hev : forall id, EvSessHubSet id ∉ evs0).
  { intros id Hin. unfold dialling in Hd.
    destruct (dialFunc 0) as [c|de].
    - injection Hd as <- _ _. apply list_elem_of_singleton in Hin. discriminate.
    - destruct (redial_loop p fuel (redialTimes p) 1 (inr de))
        as [[[evs1 n1] cur1]|] eqn:Hrec; [|discriminate].
      injection Hd as <- _ _. apply elem_of_cons in Hin as [Hin|Hin]; [discriminate|].
      clear -Hrec Hin. revert evs1 n1 cur1 Hrec Hin.
      generalize (redialTimes p) at 1. generalize 1%nat. generalize (@inr Conn error de).
      induction fuel as [|fuel IH]; intros cur k r evs1 n1 cur1 Hrec Hin; [discriminate|].
      cbn [tp.redial_loop] in Hrec. destruct (next r) as [[|] r'].
      + destruct (dialFunc k) as [c|de'].
        * injection Hrec as <- _ _.
          repeat (apply elem_of_cons in Hin as [Hin|Hin]; [discriminate|]).
          inversion Hin.
        * destruct (redial_loop p fuel r' (S k) (inr de'))
            as [[[evs2 n2] cur2]|] eqn:Hrec2; [|discriminate].
          injection Hrec as <- _ _.
          repeat (apply elem_of_cons in Hin as [Hin|Hin]; [discriminate|]).
          eapply IH; eassumption.
      + injection Hrec as <- _ _. inversion Hin. }
  destruct cur as [conn|dialErr].
  - destruct (postDial (dialed p conn)) as [sess [rerr|]];
      injection H as <- <- <- <- <-.
    + split; [split; [discriminate | reflexivity]|]. split.
      * intros _. split; [reflexivity|]. intros id Hin.
        apply elem_of_app in Hin as [Hin|Hin]; [exact (Hev id Hin)|].
        repeat (apply elem_of_cons in Hin as [Hin|Hin]; [discriminate|]).
        inversion Hin.
      * intros sess' [=].
    + split; [split; [discriminate | congruence]|]. split; [congruence|].
      intros sess' [= <-]. split; [reflexivity|].
      split; [apply lookup_insert_eq|].
      split; [apply elem_of_app; right; do 3 right; left|].
      split; [|split; reflexivity].
      unfold CountSession, sessHub_Set. cbn [sessHub set_sessHub].
      rewrite map_size_insert. destruct (sessHub p !! ID sess); simpl; lia.
  - injection H as <- <- <- <- <-.
    split; [split; [discriminate | reflexivity]|]. split.
    + intros _. split; [reflexivity | exact Hev].
    + intros sess' [=].
Qed.

Lemma redial_loop_more_fuel (p : peer) (fuel : nat) :
  forall (fuel' : nat) (r : Z) (n : nat) (cur : Conn + error) res,
    (fuel <= fuel')%nat ->
    redial_loop p fuel r n cur = Some res ->
    redial_loop p fuel' r n cur = Some res.
Proof.
  induction fuel as [|fuel IH]; intros fuel' r n cur res Hle H; [discriminate|].
  destruct fuel' as [|fuel']; [lia|]. cbn [tp.redial_loop] in *.
  destruct (next r) as [[|] r']; [|exact H].
  destruct (dialFunc n) as [conn|dialErr]; [exact H|].
  destruct (redial_loop p fuel r' (S n) (inr dialErr)) as [res0|] eqn:Hrec;
    [|discriminate].
  rewrite (IH fuel' _ _ _ _ ltac:(lia) Hrec). exact H.
Qed.

Lemma redial_loop_enough_fuel (p : peer) (r : nat) :
  forall (fuel n : nat) (cur : Conn + error),
    Z.of_nat r < 2 ^ 31 -> (r < fuel)%nat ->
    is_Some (redial_loop p fuel (Z.of_nat r) n cur).
Proof.
  induction r as [|r IH]; intros fuel n cur Hr Hfuel;
    (destruct fuel as [|fuel]; [lia|]); cbn [tp.redial_loop].
  - change (Z.of_nat 0) with 0. rewrite PeerProperties.next_zero. eauto.
  - rewrite PeerProperties.next_positive by lia.
    replace (Z.of_nat (S r) - 1) with (Z.of_nat r) by lia.
    destruct (dialFunc n) as [conn|dialErr]; [eauto|].
    destruct (IH fuel (S n) (inr dialErr) ltac:(lia) ltac:(lia)) as [res Hres].
    rewrite Hres. destruct res as [[evs n'] cur']. eauto.
Qed.

(** X11: the fuel of [Dial] only bounds the run: a [Dial] that returns
    with some fuel returns the same with any more; and with a budget
    [RedialTimes = n >= 0], fuel [n + 1] always suffices, whatever the dial
    function does, so that such a [Dial] always returns. *)
Theorem Dial_returns (fuel fuel' : nat) (p : peer) :
  is_int32 (redialTimes p) ->
  (forall res, (fuel <= fuel')%nat ->
     Dial fuel p = Some res -> Dial fuel' p = Some res)
  /\ (0 <= redialTimes p ->
      is_Some (Dial (S (Z.to_nat (redialTimes p))) p)).
Proof.
  intros [Hlo Hhi]. split.
  - intros res Hle H. rewrite Dial_unfold in *.
    destruct (dialFunc 0) as [conn|dialErr]; [exact H|].
    destruct (redial_loop p fuel (redialTimes p) 1 (inr dialErr))
      as [res0|] eqn:Hrec; [|discriminate].
    rewrite (redial_loop_more_fuel _ _ _ _ _ _ _ Hle Hrec). exact H.
  - intros Hn. rewrite Dial_unfold.
    destruct (dialFunc 0) as [conn|dialErr].
    + destruct (postDial (dialed p conn)) as [sess [rerr|]]; eauto.
    + destruct (redial_loop_enough_fuel p (Z.to_nat (redialTimes p))
                  (S (Z.to_nat (redialTimes p))) 1 (inr dialErr)
                  ltac:(rewrite Z2Nat.id; lia) ltac:(lia)) as [res Hres].
      rewrite Z2Nat.id in Hres by lia. rewrite Hres.
      destruct res as [[evs n] [conn|e]]; [|eauto].
      destruct (postDial (dialed p conn)) as [sess [rerr|]]; eauto.
Qed.

Lemma redial_loop_first_success (p : peer) (conn : Conn) (j : nat) :
  forall (fuel : nat) (r : Z) (n : nat) (cur : Conn + error),
    is_int32 r -> (r < 0 \/ Z.of_nat j < r) -> (j < fuel)%nat ->
    (forall i, (n <= i < n + j)%nat -> exists e, dialFunc i = inr e) ->
    dialFunc (n + j) = inl conn ->
    exists evs,
      redial_loop p fuel r n cur = Some (evs, S (n + j), inl conn)
      /\ dials evs = seq n (S j)
      /\ sleeps evs = replicate (S j) (redialInterval p).
Proof.
  induction j as [|j IH]; intros fuel r n cur Hr Hb Hfuel Hfail Hok;
    (destruct fuel as [|fuel]; [lia|]); cbn [tp.redial_loop].
  - rewrite Nat.add_0_r in *.
    destruct (next_cases r Hr) as [[Hz Hn]|[[Hz Hn]|[Hz Hn]]]; [lia| |];
      rewrite Hn, Hok; eexists; repeat split; reflexivity.
  - destruct (Hfail n ltac:(lia)) as [e He].
    assert (Hrec : forall r', is_int32 r' -> (r' < 0 \/ Z.of_nat j < r') ->
              exists evs,
                redial_loop p fuel r' (S n) (inr e) = Some (evs, S (S n + j), inl conn)
                /\ dials evs = seq (S n) (S j)
                /\ sleeps evs = replicate (S j) (redialInterval p)).
    { intros r' Hr' Hb'. apply IH; try assumption; try lia.
      - intros i Hi. apply Hfail. lia.
      - replace (S n + j)%nat with (n + S j)%nat by lia. exact Hok. }
    replace (n + S j)%nat with (S n + j)%nat by lia.
    destruct (next_cases r Hr) as [[Hz Hn]|[[Hz Hn]|[Hz Hn]]]; [lia| |];
      rewrite Hn, He.
    + destruct (Hrec (r - 1)) as (evs & -> & Hd & Hs);
        [unfold is_int32 in *; lia | lia |].
      eexists. split; [reflexivity|]. split; simpl; [rewrite Hd | rewrite Hs];
        reflexivity.
    + destruct (Hrec r) as (evs & -> & Hd & Hs); [assumption | lia |].
      eexists. split; [reflexivity|]. split; simpl; [rewrite Hd | rewrite Hs];
        reflexivity.
Qed.

(** X12: when the dial function fails [j] times and then gives a
    connection, and the budget allows [j] redials ([RedialTimes] negative
    or at least [j]), [Dial] makes exactly [j + 1] calls and [j] sleeps and
    hands the hooks a session whose identifier is its local address, with
    the redial hook installed when [RedialTimes] is not 0; if the hooks
    raise no error the session they leave is returned and registered, and
    if they raise one it is returned, no session is, and the peer is as
    before. *)
Theorem Dial_first_success (fuel : nat) (p : peer) (conn : Conn) (j : nat) :
  is_int32 (redialTimes p) ->
  redialTimes p < 0 \/ Z.of_nat j <= redialTimes p ->
  (j < fuel)%nat ->
  (forall i, (i < j)%nat -> exists e, dialFunc i = inr e) ->
  dialFunc j = inl conn ->
  ID (dialed p conn) = LocalAddr (dialed p conn)
  /\ (redialTimes p <> 0 -> sess_redialForClientLocked (dialed p conn) = true)
  /\ exists p' evs res,
       Dial fuel p = Some (p', evs, S j, res)
       /\ dials evs = seq 0 (S j)
       /\ sleeps evs = replicate j (redialInterval p)
       /\ (forall sess, postDial (dialed p conn) = (sess, None) ->
             res = (Some sess, None) /\ p' = sessHub_Set sess p)
       /\ (forall sess rerr, postDial (dialed p conn) = (sess, Some rerr) ->
             res = (None, Some rerr) /\ p' = p).
Proof.
  intros Hr Hb Hfuel Hfail Hok. split; [|split].
  - unfold dialed. destruct (redialTimes p =? 0); reflexivity.
  - intros Hne. unfold dialed.
    destruct (Z.eqb_spec (redialTimes p) 0); [contradiction | reflexivity].
  - assert (Hd : exists evs, dialling fuel p = Some (evs, S j, inl conn)
                  /\ dials evs = seq 0 (S j)
                  /\ sleeps evs = replicate j (redialInterval p)).
    { unfold dialling. destruct j as [|j].
      - rewrite Hok. eexists. repeat split; reflexivity.
      - destruct (Hfail 0%nat ltac:(lia)) as [e He]. rewrite He.
        destruct (redial_loop_first_success p conn j fuel (redialTimes p) 1 (inr e))
          as (evs & -> & Hd & Hs); try assumption; try lia.
        + intros i Hi. apply Hfail. lia.
        + eexists. split; [reflexivity|]. split; simpl; [rewrite Hd | rewrite Hs];
            reflexivity. }
    destruct Hd as (evs & Hd & Hdials & Hsleeps).
    rewrite Dial_dialling, Hd.
    destruct (postDial (dialed p conn)) as [sess [rerr|]];
      eexists _, _, _; (split; [reflexivity|]);
      rewrite dials_app, sleeps_app, Hdials, Hsleeps; simpl; rewrite !app_nil_r;
      (split; [reflexivity|]); (split; [reflexivity|]);
      split; intros; simplify_eq; auto.
Qed.

End Dialing.

(** ** Redial *)

Section Redial.

Variable postDial : session -> session * option Rerror.
Variable Rerror_ToError : Rerror -> error.
Variable dialFunc : nat -> Conn + error.

Abbreviation renew := (renewSessionForClient postDial Rerror_ToError dialFunc).
Abbreviation redialForClient_loop :=
  (tp.redialForClient_loop postDial Rerror_ToError dialFunc).
Abbreviation redialForClientLocked :=
  (tp.redialForClientLocked postDial Rerror_ToError dialFunc).

Lemma renew_dial_error (p : peer) (sess : session) (n : nat) (e : error) :
  dialFunc n = inr e -> renew p sess n = (p, sess, [EvDial n], Some e).
Proof. intros H. unfold renewSessionForClient. rewrite H. reflexivity. Qed.

(** X13: [renewSessionForClient] calls the dial function once.  If the
    dial fails, nothing else happens: the old connection is not closed and
    the session and the peer are as before.  If it succeeds, the old
    connection is closed; then either the hooks raise no error and the
    session is found in the hub under its identifier, or they raise one
    and the session is left closed and the peer as before.  In every case
    of failure the peer is unchanged. *)
Theorem renew_failure_modes (p : peer) (sess : session) (n : nat) :
  let r := renew p sess n in
  dials r.1.2 = [n]
  /\ (r.2 <> None -> r.1.1.1 = p)
  /\ (forall e, dialFunc n = inr e ->
        r.2 = Some e /\ r.1.1.2 = sess /\ forall c, EvConnClose c ∉ r.1.2)
  /\ (forall conn, dialFunc n = inl conn ->
        EvConnClose (getConn sess) ∈ r.1.2
        /\ (r.2 <> None -> sess_status r.1.1.2 = statusClosed)
        /\ (r.2 = None ->
            GetSession (ID r.1.1.2) r.1.1.1 = Some r.1.1.2
            /\ EvSessHubSet (ID r.1.1.2) ∈ r.1.2)).
Proof.
  cbv zeta. unfold renewSessionForClient.
  destruct (dialFunc n) as [conn|e] eqn:Hd; cbv zeta.
  - match goal with |- context [postDial ?s] =>
      destruct (postDial s) as [sess' [rerr|]] end; cbn [fst snd].
    + split; [reflexivity|]. split; [reflexivity|]. split; [intros e [=]|].
      intros conn' _. split; [right; left|]. split; [reflexivity|].
      intros [=].
    + split; [reflexivity|]. split; [congruence|]. split; [intros e [=]|].
      intros conn' _. split; [right; left|]. split; [congruence|].
      intros _. split; [apply lookup_insert_eq|]. do 4 right. left.
  - cbn [fst snd]. split; [reflexivity|]. split; [reflexivity|]. split.
    + intros e' [= <-]. split; [reflexivity|]. split; [reflexivity|].
      intros c Hin. apply list_elem_of_singleton in Hin. discriminate.
    + intros conn [=].
Qed.

Lemma redialForClient_loop_exhausts (p : peer) (sess : session) (k : nat) :
  forall (fuel n : nat) (err : option error),
    Z.of_nat k < 2 ^ 31 -> (k < fuel)%nat ->
    (forall i, (n <= i)%nat -> exists e, dialFunc i = inr e) ->
    redialForClient_loop fuel p sess (Z.of_nat k) n err
    = Some (p, sess, PeerProperties.failed_redials p n k, (n + k)%nat, false).
Proof.
  induction k as [|k IH]; intros fuel n err Hk Hfuel Hfail;
    (destruct fuel as [|fuel]; [lia|]); cbn [tp.redialForClient_loop].
  - change (Z.of_nat 0) with 0. rewrite PeerProperties.next_zero, Nat.add_0_r.
    reflexivity.
  - rewrite PeerProperties.next_positive by lia.
    replace (Z.of_nat (S k) - 1) with (Z.of_nat k) by lia.
    destruct (Hfail n ltac:(lia)) as [e He].
    rewrite (renew_dial_error p sess n e He).
    rewrite (IH fuel (S n) (Some e)) by (try lia; intros i Hi; apply Hfail; lia).
    unfold PeerProperties.failed_redials. simpl.
    repeat f_equal. lia.
Qed.

(** X14: the redial hook of a session.  Called for a connection that is
    no longer the session's, it answers true at once and dials nothing.
    Otherwise, with a budget [RedialTimes = k >= 0] and a dial function
    that keeps failing, it sleeps and dials exactly [k] times, leaves the
    session and the peer as they were, and answers false. *)
Theorem redialForClientLocked_exhausts (fuel : nat) (p : peer) (sess : session)
  (n : nat) :
  is_int32 (redialTimes p) -> 0 <= redialTimes p ->
  (Z.to_nat (redialTimes p) < fuel)%nat ->
  (forall i, (n <= i)%nat -> exists e, dialFunc i = inr e) ->
  redialForClientLocked fuel p sess true n = Some (p, sess, [], n, true)
  /\ exists evs,
       redialForClientLocked fuel p sess false n
       = Some (p, sess, evs, (n + Z.to_nat (redialTimes p))%nat, false)
       /\ dials evs = seq n (Z.to_nat (redialTimes p))
       /\ sleeps evs = replicate (Z.to_nat (redialTimes p)) (redialInterval p).
Proof.
  intros [Hlo Hhi] Hn Hfuel Hfail. split; [reflexivity|].
  unfold tp.redialForClientLocked.
  assert (Hk : Z.of_nat (Z.to_nat (redialTimes p)) < 2 ^ 31)
    by (rewrite Z2Nat.id; lia).
  pose proof (redialForClient_loop_exhausts p sess (Z.to_nat (redialTimes p))
                fuel n None Hk Hfuel Hfail) as E.
  rewrite Z2Nat.id in E by lia. rewrite E.
  eexists. split; [reflexivity|].
  apply PeerProperties.dials_failed_redials.
Qed.



End Redial.

(** ** The accept loop on any input *)

Lemma next_tempDelay_range (d : Z) :
  d = 0 \/ 5 * Millisecond <= d <= Second ->
  5 * Millisecond <= next_tempDelay d <= Second.
Proof.
  intros Hd. unfold next_tempDelay, Second, Millisecond in *.
  destruct (Z.eqb_spec d 0) as [->|Hne]; [simpl; lia|].
  rewrite PeerProperties.wrap_int64_small by lia.
  destruct (Z.gtb_spec (d * 2) (1 * 1000000000)); lia.
Qed.

Lemma accept_loop_sleeps (accepts : list accept_result) :
  forall d, d = 0 \/ 5 * Millisecond <= d <= Second ->
    Forall (fun x => 5 * Millisecond <= x <= Second)
           (sleeps (accept_loop d accepts).1.1).
Proof.
  induction accepts as [|a rest IH]; intros d Hd; [constructor|].
  destruct a as [conn|e closed]; cbn [accept_loop].
  - specialize (IH 0 ltac:(left; reflexivity)).
    destruct (accept_loop 0 rest) as [[evs d'] r]. exact IH.
  - destruct closed; [constructor|].
    destruct (is_temporary e); [|constructor].
    pose proof (next_tempDelay_range d Hd) as Hn.
    specialize (IH (next_tempDelay d) ltac:(right; exact Hn)).
    destruct (accept_loop (next_tempDelay d) rest) as [[evs d'] r].
    constructor; assumption.
Qed.

(** X16: whatever [Accept] delivers, in whatever order, every sleep of
    [serveListener] lasts at least 5 ms and at most 1 s. *)
Theorem serveListener_sleeps_bounded (p : peer) (lis : Listener)
  (accepts : list accept_result) (d : Z) :
  d ∈ sleeps (serveListener p lis accepts).1.2 ->
  5 * Millisecond <= d <= 1 * Second.
Proof.
  intros Hin. pose proof (accept_loop_sleeps accepts 0 ltac:(left; reflexivity)) as H.
  unfold serveListener in Hin.
  destruct (accept_loop 0 accepts) as [[evs d'] [e|]]; cbn [fst snd] in *.
  - rewrite sleeps_app in Hin. simpl in Hin. rewrite app_nil_r in Hin.
    rewrite Forall_forall in H. specialize (H d Hin). lia.
  - rewrite Forall_forall in H. specialize (H d Hin). lia.
Qed.

Lemma accept_loop_running (pre : list accept_result) :
  Forall (fun a => stops a = false) pre ->
  forall d rest,
    (accept_loop d pre).2 = None
    /\ gos (accept_loop d pre).1.1 = accepted pre
    /\ (forall l, EvListenerClose l ∉ (accept_loop d pre).1.1)
    /\ accept_loop d (pre ++ rest)
       = ((accept_loop d pre).1.1
            ++ (accept_loop (accept_loop d pre).1.2 rest).1.1,
          (accept_loop (accept_loop d pre).1.2 rest).1.2,
          (accept_loop (accept_loop d pre).1.2 rest).2).
Proof.
  induction 1 as [|a pre Ha _ IH]; intros d rest.
  - cbn. repeat split; [intros l Hl; inversion Hl|].
    destruct (accept_loop d rest) as [[evs d'] r]. reflexivity.
  - destruct a as [conn|e closed]; cbn [accept_loop app stops] in *.
    + destruct (IH 0 rest) as (H1 & H2 & H3 & H4). rewrite H4.
      destruct (accept_loop 0 pre) as [[evs d'] r]. cbn [fst snd] in *.
      repeat split; try assumption.
      * cbn. rewrite H2. reflexivity.
      * intros l Hl. apply elem_of_cons in Hl as [Hl|Hl]; [discriminate|].
        exact (H3 l Hl).
    + destruct closed; [discriminate|]. cbn in Ha.
      destruct (is_temporary e); [|discriminate].
      destruct (IH (next_tempDelay d) rest) as (H1 & H2 & H3 & H4). rewrite H4.
      destruct (accept_loop (next_tempDelay d) pre) as [[evs d'] r].
      cbn [fst snd] in *. repeat split; try assumption.
      intros l Hl. apply elem_of_cons in Hl as [Hl|Hl]; [discriminate|].
      exact (H3 l Hl).
Qed.

(** X17: as long as nothing [Accept] delivers is a permanent error or an
    error met with the peer closed, [serveListener] keeps running: it has
    not returned, it has not closed the listener, and it has started one
    accept task for each connection delivered, in order. *)
Theorem serveListener_running (p : peer) (lis : Listener)
  (accepts : list accept_result) :
  Forall (fun a => stops a = false) accepts ->
  let r := serveListener p lis accepts in
  r.2 = None
  /\ gos r.1.2 = accepted accepts
  /\ (forall l, EvListenerClose l ∉ r.1.2)
  /\ listeners r.1.1 = lis :: listeners p.
Proof.
  intros H r. subst r.
  destruct (accept_loop_running accepts H 0 []) as (H1 & H2 & H3 & _).
  unfold serveListener.
  destruct (accept_loop 0 accepts) as [[evs d'] [e|]]; cbn [fst snd] in *;
    [discriminate|]. repeat split; assumption.
Qed.

(** X18: [serveListener] returns at the first accept result that is an
    error met with the peer closed, or a permanent error: it returns
    [ErrListenClosed] in the first case, even for a temporary error, and
    the error itself in the second; what [Accept] would deliver afterwards
    plays no part; one accept task was started for each connection
    delivered before, and closing the listener is the last thing done. *)
Theorem serveListener_returns (p : peer) (lis : Listener)
  (pre post : list accept_result) (a : accept_result) :
  Forall (fun a => stops a = false) pre -> stops a = true ->
  let r := serveListener p lis (pre ++ a :: post) in
  r = serveListener p lis (pre ++ [a])
  /\ r.2 = stop_error a
  /\ (forall e, a = AcceptError e true -> r.2 = Some ErrListenClosed)
  /\ (forall e, a = AcceptError e false -> r.2 = Some e)
  /\ gos r.1.2 = accepted pre
  /\ last r.1.2 = Some (EvListenerClose lis)
  /\ listeners r.1.1 = lis :: listeners p.
Proof.
  intros Hpre Ha r. subst r. unfold serveListener.
  destruct (accept_loop_running pre Hpre 0 (a :: post)) as (H1 & H2 & H3 & H4).
  destruct (accept_loop_running pre Hpre 0 [a]) as (_ & _ & _ & H4').
  rewrite H4, H4'.
  destruct (accept_loop 0 pre) as [[evs d'] r0]. cbn [fst snd] in *.
  destruct a as [conn|e closed]; [discriminate|]. cbn [accept_loop stops] in *.
  destruct closed; cbn [fst snd stop_error].
  - rewrite app_nil_r. split; [reflexivity|]. split; [reflexivity|].
    split; [reflexivity|]. split; [intros e' [=]|].
    split; [rewrite <- H2; clear; induction evs as [|[] evs IH]; simpl; congruence|].
    split; [apply last_snoc | reflexivity].
  - cbn in Ha. destruct (is_temporary e); [discriminate|]. cbn [fst snd].
    rewrite app_nil_r. split; [reflexivity|]. split; [reflexivity|].
    split; [intros e' [=]|]. split; [intros e' [= <-]; reflexivity|].
    split; [rewrite <- H2; clear; induction evs as [|[] evs IH]; simpl; congruence|].
    split; [apply last_snoc | reflexivity].
Qed.

(** ** Close, once more *)


(** ** ServeConn *)

Section Serving.

Variable newSession : Conn -> session.
Variable postAccept : session -> session * option Rerror.
Variable Rerror_ToError : Rerror -> error.

Abbreviation ServeConn := (tp.ServeConn newSession postAccept Rerror_ToError).

(** X20: [ServeConn] refuses a connection whose network name contains
    "udp" unless it is a quic connection: it then returns the
    invalid-network error, creates no session and leaves the peer as it
    was.  Otherwise it returns either the session the [postAccept] hooks
    leave, registered and found by [GetSession] under its identifier, or
    the hooks' error with the peer unchanged; on a connection that is not a
    TLS one it does to the peer what the accept task does, and on any
    connection it runs no handshake and sets no deadline. *)
Theorem ServeConn_spec (p : peer) (conn : Conn) (network : string) (isQuic : bool) :
  let r := ServeConn p conn network isQuic in
  (strings_Contains network "udp" = true -> isQuic = false ->
     r = (p, [], (None, Some (invalid_network network))))
  /\ (strings_Contains network "udp" = false \/ isQuic = true ->
      (Conn_isTLS conn = false ->
         accept_task newSession postAccept p conn = r.1)
      /\ (forall sess, postAccept (newSession conn) = (sess, None) ->
            r.2 = (Some sess, None)
            /\ GetSession (ID sess) r.1.1 = Some sess)
      /\ (forall sess rerr, postAccept (newSession conn) = (sess, Some rerr) ->
            r.2 = (None, Some (Rerror_ToError rerr)) /\ r.1.1 = p))
  /\ (forall ev, ev ∈ r.1.2 ->
        match ev with
        | EvHandshake _ _ | EvSetReadDeadline _ _ => False
        | _ => True
        end).
Proof.
  cbv zeta. unfold tp.ServeConn. split; [|split].
  - intros -> ->. reflexivity.
  - intros Hok.
    assert (E : strings_Contains network "udp" && negb isQuic = false)
      by (destruct Hok as [-> | ->]; [reflexivity | apply andb_false_r]).
    rewrite E. split; [|split].
    + intros Htls. unfold accept_task. rewrite Htls.
      destruct (postAccept (newSession conn)) as [sess [rerr|]]; reflexivity.
    + intros sess Hpa. rewrite Hpa. split; [reflexivity | apply lookup_insert_eq].
    + intros sess rerr Hpa. rewrite Hpa. split; reflexivity.
  - intros ev Hin.
    destruct (strings_Contains network "udp" && negb isQuic);
      [inversion Hin|].
    destruct (postAccept (newSession conn)) as [sess [rerr|]]; cbn [fst snd] in Hin;
      repeat (apply elem_of_cons in Hin as [-> | Hin]; [exact I|]);
      inversion Hin.
Qed.

End Serving.

(** ** The properties at concrete peers *)

Definition good_conn : Conn := mkConn "127.0.0.1:5000" "10.0.0.1:9090" false None.

(** A dial function that fails twice and then connects. *)
Definition third_time (i : nat) : Conn + error :=
  if (i <? 2)%nat then inr PeerProperties.refused else inl good_conn.

Definition eager_client : peer := mkPeer ∅ false 0 0 false "tcp" 1000 (-1) [].
Definition patient_client : peer := mkPeer ∅ false 0 0 false "tcp" 1000 5 [].

Definition to_error (r : Rerror) : error := mkError (Message r) None.

Lemma is_int32_small (z : Z) : -10 <= z <= 10 -> is_int32 z.
Proof. unfold is_int32. lia. Qed.


Lemma Dial_outcome_witness :
  exists p' evs sess,
    Dial PeerProperties.plain_session PeerProperties.no_hook
         PeerProperties.some_rerr third_time 5 patient_client
    = Some (p', evs, 3%nat, (Some sess, None))
    /\ GetSession (ID sess) p' = Some sess.
Proof.
  destruct (Dial PeerProperties.plain_session PeerProperties.no_hook
              PeerProperties.some_rerr third_time 5 patient_client)
    as [[[[p' evs] n] [[sess|] e]]|] eqn:E;
    try (vm_compute in E; discriminate E).
  assert (Hn : n = 3%nat /\ e = None) by (vm_compute in E; split; congruence).
  destruct Hn as [-> ->].
  destruct (Dial_outcome PeerProperties.plain_session PeerProperties.no_hook
              PeerProperties.some_rerr third_time 5 patient_client p' evs 3
              (Some sess) None E) as (_ & _ & Hs).
  exists p', evs, sess. split; [reflexivity|]. apply (Hs sess eq_refl).
Defined.

Lemma Dial_returns_witness :
  is_Some (Dial PeerProperties.plain_session PeerProperties.no_hook
             PeerProperties.some_rerr (fun _ => inr PeerProperties.refused)
             6 patient_client).
Proof.
  apply (Dial_returns PeerProperties.plain_session PeerProperties.no_hook
           PeerProperties.some_rerr (fun _ => inr PeerProperties.refused)
           0 0 patient_client (is_int32_small 5 ltac:(lia))).
  simpl. lia.
Defined.

Lemma Dial_first_success_witness :
  ID (dialed PeerProperties.plain_session eager_client good_conn) = "127.0.0.1:5000"
  /\ exists p' evs res,
       Dial PeerProperties.plain_session PeerProperties.no_hook
            PeerProperties.some_rerr third_time 3 eager_client
       = Some (p', evs, 3%nat, res)
       /\ sleeps evs = [1000; 1000].
Proof.
  assert (Hb : redialTimes eager_client < 0 \/ Z.of_nat 2 <= redialTimes eager_client)
    by (left; simpl; lia).
  assert (Hf : (2 < 3)%nat) by lia.
  destruct (Dial_first_success PeerProperties.plain_session PeerProperties.no_hook
              PeerProperties.some_rerr third_time 3 eager_client good_conn 2
              (is_int32_small (-1) ltac:(lia)) Hb Hf)
    as (Hid & _ & p' & evs & res & HD & _ & Hs & _).
  - intros i Hi. exists PeerProperties.refused.
    destruct i as [|[|i]]; [reflexivity | reflexivity | lia].
  - reflexivity.
  - split; [exact Hid|]. exists p', evs, res. split; [exact HD | exact Hs].
Defined.

Lemma redialForClientLocked_exhausts_witness :
  exists evs,
    redialForClientLocked PeerProperties.no_hook to_error
      (fun _ => inr PeerProperties.refused) 6 patient_client
      PeerProperties.default_id_session false 1
    = Some (patient_client, PeerProperties.default_id_session, evs, 6%nat, false)
    /\ dials evs = [1; 2; 3; 4; 5]%nat.
Proof.
  assert (H0 : 0 <= redialTimes patient_client) by (simpl; lia).
  assert (Hf : (Z.to_nat (redialTimes patient_client) < 6)%nat) by (simpl; lia).
  destruct (redialForClientLocked_exhausts PeerProperties.no_hook to_error
              (fun _ => inr PeerProperties.refused) 6 patient_client
              PeerProperties.default_id_session 1
              (is_int32_small 5 ltac:(lia)) H0 Hf
              (fun i _ => ex_intro _ PeerProperties.refused eq_refl))
    as (_ & evs & HR & Hd & _).
  exists evs. split; [exact HR | exact Hd].
Defined.


Definition mixed_accepts : list accept_result :=
  [AcceptError PeerProperties.timeout_error false; Accepted good_conn;
   AcceptError PeerProperties.timeout_error false;
   AcceptError PeerProperties.timeout_error false;
   Accepted PeerProperties.new_conn].

Lemma serveListener_sleeps_bounded_witness :
  10000000 ∈ sleeps (serveListener PeerProperties.server
                       PeerProperties.tcp_listener mixed_accepts).1.2
  /\ 5 * Millisecond <= 10000000 <= 1 * Second.
Proof.
  assert (H : 10000000 ∈ sleeps (serveListener PeerProperties.server
                                   PeerProperties.tcp_listener mixed_accepts).1.2)
    by (right; right; left).
  split; [exact H|].
  apply (serveListener_sleeps_bounded PeerProperties.server
           PeerProperties.tcp_listener mixed_accepts 10000000 H).
Defined.

Lemma serveListener_running_witness :
  Forall (fun a => stops a = false) mixed_accepts
  /\ gos (serveListener PeerProperties.server PeerProperties.tcp_listener
            mixed_accepts).1.2
     = [good_conn; PeerProperties.new_conn].
Proof.
  assert (H : Forall (fun a => stops a = false) mixed_accepts)
    by (repeat constructor).
  split; [exact H|].
  apply (serveListener_running PeerProperties.server PeerProperties.tcp_listener
           mixed_accepts H).
Defined.

Lemma serveListener_returns_witness :
  (serveListener PeerProperties.server PeerProperties.tcp_listener
     (mixed_accepts ++ AcceptError PeerProperties.timeout_error true
                    :: [Accepted good_conn])).2
  = Some ErrListenClosed.
Proof.
  assert (H : Forall (fun a => stops a = false) mixed_accepts)
    by (repeat constructor).
  destruct (serveListener_returns PeerProperties.server PeerProperties.tcp_listener
              mixed_accepts [Accepted good_conn]
              (AcceptError PeerProperties.timeout_error true) H eq_refl)
    as (_ & _ & Hclosed & _).
  apply (Hclosed PeerProperties.timeout_error eq_refl).
Defined.


Example strings_Contains_networks :
  strings_Contains "udp4" "udp" = true /\ strings_Contains "tcp" "udp" = false
  /\ strings_Contains "unixpacket" "udp" = false /\ strings_Contains "" "" = true
  /\ strings_Contains "quic-udp" "udp" = true.
Proof. repeat split. Qed.

Example ServeConn_udp_refused :
  tp.ServeConn PeerProperties.remote_id_session PeerProperties.no_hook to_error
    PeerProperties.server good_conn "udp" false
  = (PeerProperties.server, [], (None, Some (invalid_network "udp"))).
Proof. reflexivity. Qed.

Example ServeConn_tls_no_handshake :
  (tp.ServeConn PeerProperties.remote_id_session PeerProperties.no_hook to_error
     PeerProperties.server PeerProperties.tls_conn_bad "tcp" false).1.2
  = [EvNewSession PeerProperties.tls_conn_bad; EvPostAccept PeerProperties.tls_conn_bad;
     EvSessHubSet "10.0.0.7:40000"; EvStartReadAndHandle "10.0.0.7:40000"].
Proof. reflexivity. Qed.

End PeerExtras.
